(** * Delta-K cipher encoder: a shallow embedding and its verified properties

    The repository holds two programs built on the same ternary code:

    - [cipher-encoder.cpp]: the static cipher and the keyword-permuted cipher
      (module [CipherEncoder] below);
    - [Delta_K.hpp] / [Delta_K.cpp]: the static cipher, its decoder and the
      keyed-additive ("Delta-K") cipher (module [DeltaK] below).

    A [std::string] is a sequence of bytes; the three glyphs are UTF-8 encoded
    and take three bytes each.  Bytes are modelled as integers in [Z], a
    string as a list of them. *)

From Stdlib Require Import ZArith Lia Ascii String.
From stdpp Require Import base tactics option list gmap.

Local Open Scope Z_scope.

(** ** C++ runtime fragments shared by both programs *)

Module Cpp.

(** [std::string]: a list of bytes, each byte being the integer 0..255. *)
Abbreviation std_string := (list Z).

(** A character literal ['c']. *)
Definition chr (a : ascii) : Z := Z.of_N (N_of_ascii a).

(** A string literal: the bytes of its UTF-8 encoding. *)
Definition lit (s : string) : std_string := chr <$> list_ascii_of_string s.

(** What can go wrong in the modelled fragment: [std::out_of_range] thrown by
    [std::string::substr], a read outside a C array or outside a string,
    a remainder by zero, and the exhaustion of the fuel that bounds the
    decoder's loop in this model. *)
Inductive error : Set :=
| out_of_range
| index_out_of_bounds
| division_by_zero
| out_of_fuel.

Inductive result (A : Type) : Type :=
| Ok (a : A)
| Err (e : error).
Arguments Ok {A} a.
Arguments Err {A} e.

#[global] Instance error_eq_dec : EqDecision error.
Proof. solve_decision. Defined.

#[global] Instance result_eq_dec `{EqDecision A} : EqDecision (result A).
Proof. solve_decision. Defined.

(** Sequencing, an error ending the computation: [x ← r; k]. *)
#[global] Instance result_bind : MBind result := λ A B k r,
  match r with
  | Ok a => k a
  | Err e => Err e
  end.

(** A [for] loop over the elements of [xs] that threads the loop state. *)
Fixpoint for_each {A S} (xs : list A) (body : S → A → result S) (s : S)
  : result S :=
  match xs with
  | [] => Ok s
  | x :: xs' => s' ← body s x ; for_each xs' body s'
  end.

(** [arr[i]] for a C array or a string indexed by an [int]: defined only
    inside the bounds. *)
Definition index {A} (arr : list A) (i : Z) : result A :=
  if i <? 0 then Err index_out_of_bounds
  else match arr !! Z.to_nat i with
       | Some x => Ok x
       | None => Err index_out_of_bounds
       end.

(** [s[i]] for a [const std::string]: the byte at [i], the terminating
    zero at [i == s.size()], undefined beyond. *)
Definition char_at (s : std_string) (i : Z) : result Z :=
  if i =? Z.of_nat (length s) then Ok 0 else index s i.

(** [arr[i] = x] for a C array. *)
Definition store {A} (arr : list A) (i : Z) (x : A) : result (list A) :=
  if (0 <=? i) && (i <? Z.of_nat (length arr))
  then Ok (<[Z.to_nat i := x]> arr)
  else Err index_out_of_bounds.

(** [a % b] on unsigned operands. *)
Definition urem (a b : Z) : result Z :=
  if b =? 0 then Err division_by_zero else Ok (a mod b).

(** [std::isalpha] in the "C" locale. *)
Definition isalpha (c : Z) : bool :=
  (chr "A" <=? c) && (c <=? chr "Z") || (chr "a" <=? c) && (c <=? chr "z").

(** [std::toupper] in the "C" locale. *)
Definition toupper (c : Z) : Z :=
  if (chr "a" <=? c) && (c <=? chr "z") then c - 32 else c.

(** [s.substr(pos, n)]: throws [std::out_of_range] when [pos > s.size()],
    otherwise yields at most [n] bytes from [pos] on. *)
Definition substr (s : std_string) (pos n : nat) : result std_string :=
  if decide (pos ≤ length s)%nat then Ok (take n (drop pos s))
  else Err out_of_range.

(** [static_cast<char>(z)], bytes being kept in 0..255. *)
Definition static_cast_char (z : Z) : Z := z mod 256.

(** The counter [size_t] wraps at 2^64. *)
Definition size_t_max : Z := 2 ^ 64.
Definition size_t_wrap (z : Z) : Z := z mod size_t_max.

End Cpp.

Import Cpp.

(** ** Delta_K.hpp and Delta_K.cpp *)

Module DeltaK.

Definition ALPHABET_LENGTH : Z := 26.

Definition BASE : Z := 3.

(** Index 0 = ▲, index 1 = ▼, index 2 = ◆. *)
Definition GLYPHS : list std_string := [lit "▲"; lit "▼"; lit "◆"].

(** Modelled from the spec: the constant [GLYPH_SIZE] used by [decrypt] is
    not declared in the header at hand.  The decoder is specified to
    advance by 9 characters for one letter, that is [GLYPH_SIZE * 3], and
    each glyph of [GLYPHS] is three bytes long. *)
Definition GLYPH_SIZE : nat := 3.

Definition TRIT_ALPHABET : list (list Z) :=
  [ [0; 0; 1]; [0; 0; 2]; [0; 1; 0]; [0; 1; 1]; [0; 1; 2];
    [0; 2; 0]; [0; 2; 1]; [0; 2; 2]; [1; 0; 0]; [1; 0; 1];
    [1; 0; 2]; [1; 1; 0]; [1; 1; 1]; [1; 1; 2]; [1; 2; 0];
    [1; 2; 1]; [1; 2; 2]; [2; 0; 0]; [2; 0; 1]; [2; 0; 2];
    [2; 1; 0]; [2; 1; 1]; [2; 1; 2]; [2; 2; 0]; [2; 2; 1];
    [2; 2; 2] ].

(** [TRIT_ALPHABET[i][j]] *)
Definition trit (i j : Z) : result Z :=
  row ← index TRIT_ALPHABET i ; index row j.

Definition abcPosition (abc : Z) : Z :=
  let abcUpper := toupper abc in
  let asciiVal := abcUpper - chr "A" in
  asciiVal.

(** The iterations [for (int j = 0; j < BASE; j++)] of the inner loops. *)
Definition columns : list Z := seqZ 0 BASE.

(** [encrypt(const std::string& plaintext)] *)
Definition encrypt_char (ciphertext : std_string) (currentChar : Z)
  : result std_string :=
  if isalpha currentChar then
    let abcValue := abcPosition currentChar in
    for_each columns
      (λ ciphertext j,
         g ← (t ← trit abcValue j ; index GLYPHS t) ;
         Ok (ciphertext ++ g))
      ciphertext
  else if currentChar =? chr " " then Ok (ciphertext ++ [chr "/"])
  else Ok (ciphertext ++ [currentChar]).

Definition encrypt (plaintext : std_string) : result std_string :=
  for_each plaintext encrypt_char [].

(** [isGlyph(std::string c)]: [c == GLYPHS[k]] for the constant [k]. *)
Definition isGlyph (c : std_string) : bool :=
  bool_decide (GLYPHS !! 0%nat = Some c)
  || bool_decide (GLYPHS !! 1%nat = Some c)
  || bool_decide (GLYPHS !! 2%nat = Some c).

(** [glyphVal(std::string c)] *)
Definition glyphVal (c : std_string) : Z :=
  if bool_decide (GLYPHS !! 0%nat = Some c) then 0
  else if bool_decide (GLYPHS !! 1%nat = Some c) then 1
  else if bool_decide (GLYPHS !! 2%nat = Some c) then 2
  else -1.

(** [abcSearch(a, b, c)]: the loop over the rows, [i] being the index of the
    first row of [rows]. *)
Fixpoint abcSearch_from (rows : list (list Z)) (i : Z) (a b c : Z) : Z :=
  match rows with
  | [] => -1
  | row :: rows' =>
      if bool_decide (row !! 0%nat = Some a ∧ row !! 1%nat = Some b
                      ∧ row !! 2%nat = Some c)
      then i
      else abcSearch_from rows' (i + 1) a b c
  end.

Definition abcSearch (a b c : Z) : Z := abcSearch_from TRIT_ALPHABET 0 a b c.

(** One iteration of the loop of [decrypt] at position [i], before the
    [i++] of the loop header: the value of [i] and of [plaintext] when the
    body ends. *)
Definition decrypt_body (ciphertext : std_string) (i : nat)
  (plaintext : std_string) : result (nat * std_string) :=
  current1 ← substr ciphertext i GLYPH_SIZE ;
  if negb (isGlyph current1) then
    c ← char_at ciphertext (Z.of_nat i) ;
    Ok (i, plaintext ++ [c])
  else
    current2 ← substr ciphertext (i + GLYPH_SIZE) GLYPH_SIZE ;
    current3 ← substr ciphertext (i + GLYPH_SIZE * 2) GLYPH_SIZE ;
    let glyphSeq1 := glyphVal current1 in
    let glyphSeq2 := glyphVal current2 in
    let glyphSeq3 := glyphVal current3 in
    let decryptedChar :=
      static_cast_char (chr "A" + abcSearch glyphSeq1 glyphSeq2 glyphSeq3) in
    Ok ((i + (GLYPH_SIZE * 3 - 1))%nat, plaintext ++ [decryptedChar]).

(** The loop [for (i = 0; i < ciphertext.length(); i++)], bounded by
    [fuel] iterations. *)
Fixpoint decrypt_loop (fuel : nat) (ciphertext : std_string) (i : nat)
  (plaintext : std_string) : result std_string :=
  if decide (i < length ciphertext)%nat then
    match fuel with
    | O => Err out_of_fuel
    | S fuel' =>
        '(i', plaintext') ← decrypt_body ciphertext i plaintext ;
        decrypt_loop fuel' ciphertext (i' + 1) plaintext'
    end
  else Ok plaintext.

(** [decrypt(const std::string& ciphertext)]: every iteration advances [i],
    so [ciphertext.length()] iterations are enough (see
    [decrypt_never_out_of_fuel]). *)
Definition decrypt (ciphertext : std_string) : result std_string :=
  decrypt_loop (length ciphertext) ciphertext 0 [].

(** [encrypt(const std::string& plaintext, const std::string& key)]; the
    loop state is [ciphertext] and [keyIndex]. *)
Definition encrypt_key_char (key : std_string) (st : std_string * Z)
  (currentChar : Z) : result (std_string * Z) :=
  let '(ciphertext, keyIndex) := st in
  if isalpha currentChar then
    k ← urem keyIndex (Z.of_nat (length key)) ;
    currentKeyChar ← char_at key k ;
    let keyAbcVal := abcPosition currentKeyChar in
    let abcVal := abcPosition currentChar in
    ciphertext ← for_each columns
      (λ ciphertext j,
         g ← (p ← trit abcVal j ;
              q ← trit keyAbcVal j ;
              let keyedValue := p + q in
              let keyedValue := Z.rem keyedValue 3 in
              index GLYPHS keyedValue) ;
         Ok (ciphertext ++ g))
      ciphertext ;
    Ok (ciphertext, size_t_wrap (keyIndex + 1))
  else if currentChar =? chr " " then Ok (ciphertext ++ [chr "/"], keyIndex)
  else Ok (ciphertext ++ [currentChar], keyIndex).

Definition encrypt_key (plaintext key : std_string) : result std_string :=
  st ← for_each plaintext (encrypt_key_char key) ([], 0) ;
  Ok st.1.

(** The loop of [keyValidation]: [false] at the first byte that is not a
    letter. *)
Fixpoint all_alpha (key : std_string) : bool :=
  match key with
  | [] => true
  | c :: key' => if negb (isalpha c) then false else all_alpha key'
  end.

(** [keyValidation(const std::string& key)] of the additive mode. *)
Definition keyValidation (key : std_string) : bool :=
  if bool_decide (key = []) then false else all_alpha key.

End DeltaK.

(** ** cipher-encoder.cpp *)

Module CipherEncoder.

Definition ALPHABET_LENGTH : Z := 26.

Definition CIPHER_ALPHABET : list std_string :=
  lit <$>
  [ "▲▲▼"; "▲▲◆"; "▲▼▲"; "▲▼▼"; "▲▼◆"; "▲◆▲"; "▲◆▼"; "▲◆◆";
    "▼▲▲"; "▼▲▼"; "▼▲◆"; "▼▼▲"; "▼▼▼"; "▼▼◆"; "▼◆▲"; "▼◆▼"; "▼◆◆";
    "◆▲▲"; "◆▲▼"; "◆▲◆"; "◆▼▲"; "◆▼▼"; "◆▼◆"; "◆◆▲"; "◆◆▼"; "◆◆◆" ]%string.

Definition abcPosition (abc : Z) : Z :=
  let abcUpper := toupper abc in
  let asciiVal := abcUpper - chr "A" in
  asciiVal.

(** [encrypt(plaintext, alphabet)] *)
Definition encrypt_char (alphabet : list std_string)
  (ciphertext : std_string) (c : Z) : result std_string :=
  if isalpha c then
    g ← index alphabet (abcPosition c) ;
    Ok (ciphertext ++ g)
  else Ok (ciphertext ++ [c]).

Definition encrypt (plaintext : std_string) (alphabet : list std_string)
  : result std_string :=
  for_each plaintext (encrypt_char alphabet) [].

(** The loop of [keyValidation]: no result ([None]) stands for the early
    [return false], otherwise the upper-cased key. *)
Fixpoint keyValidation_loop (key upperKey : std_string) : option std_string :=
  match key with
  | [] => Some upperKey
  | c :: key' =>
      if negb (isalpha c) then None
      else keyValidation_loop key' (upperKey ++ [toupper c])
  end.

(** [keyValidation(const std::string& key)] of the permutation mode. *)
Definition keyValidation (key : std_string) : bool :=
  match keyValidation_loop key [] with
  | None => false
  | Some upperKey =>
      let chars : gset Z := list_to_set upperKey in
      bool_decide (size chars = length upperKey)
  end.

(** The inner loop of [alphabetWithKey]: erase the first [alphabet[j]]
    equal to [c], if any, and stop. *)
Fixpoint erase_first (c : Z) (alphabet : std_string) : std_string :=
  match alphabet with
  | [] => []
  | a :: alphabet' =>
      if a =? c then alphabet' else a :: erase_first c alphabet'
  end.

(** [alphabetWithKey(const std::string& key)] *)
Definition alphabetWithKey (key : std_string) : std_string :=
  let alphabet := lit "ABCDEFGHIJKLMNOPQRSTUVWXYZ" in
  let keyedAlphabet := toupper <$> key in
  let alphabet :=
    foldl (λ alphabet c, erase_first c alphabet) alphabet keyedAlphabet in
  keyedAlphabet ++ alphabet.

(** [keyedCipherAlphabet(keyedAlphabet, output)]: [output] is passed by
    reference, its final value is returned. *)
Definition keyedCipherAlphabet (keyedAlphabet : std_string)
  (output : list std_string) : result (list std_string) :=
  for_each (seqZ 0 ALPHABET_LENGTH)
    (λ output i,
       c ← char_at keyedAlphabet i ;
       let index_ := c - chr "A" in
       g ← index CIPHER_ALPHABET i ;
       store output index_ g)
    output.

(** The keyed branch of [main]: the table [keyedCipher] starts as 26 empty
    strings. *)
Definition encrypt_with_key (plaintext key : std_string)
  : result std_string :=
  keyedCipher ←
    keyedCipherAlphabet (alphabetWithKey key) (replicate 26 []) ;
  encrypt plaintext keyedCipher.

(** One iteration of the [do ... while] loop of [main], [key] being what
    [std::cin >> key] has read: the new value of [ciphertext], and whether
    the loop condition [!(keyValidation(key) || key == "0")] asks for
    another iteration.  The prompts and the message written to [std::cout]
    are left out. *)
Definition main_iteration (plaintext key ciphertext : std_string)
  : result (std_string * bool) :=
  ciphertext ←
    (if bool_decide (key = lit "0") then encrypt plaintext CIPHER_ALPHABET
     else if negb (keyValidation key) then Ok ciphertext
     else encrypt_with_key plaintext key) ;
  Ok (ciphertext, negb (keyValidation key || bool_decide (key = lit "0"))).

(** [std::cin >> key] on the tokens [input] that are still to come: the
    next token is stored in [key]; at the end of the input the extraction
    fails and [key] keeps the value it has. *)
Definition cin_read (input : list std_string) (key : std_string)
  : std_string * list std_string :=
  match input with
  | [] => (key, [])
  | token :: input => (token, input)
  end.

(** The [do ... while] loop of [main], which runs its body before it tests
    its condition: every iteration reads [key], also when no token is left.
    The loop has no bound of its own; [fuel] bounds the number of
    iterations, and [Err out_of_fuel] says that the loop has not ended
    within them.  The result is the ciphertext that is printed once the
    loop has ended. *)
Fixpoint main_loop (fuel : nat) (plaintext : std_string)
  (input : list std_string) (key ciphertext : std_string)
  : result std_string :=
  match fuel with
  | O => Err out_of_fuel
  | S fuel =>
      let '(key, input) := cin_read input key in
      '(ciphertext, again) ← main_iteration plaintext key ciphertext ;
      if again : bool then main_loop fuel plaintext input key ciphertext
      else Ok ciphertext
  end.

(** [main()], for the line read as [plaintext] and the tokens [input] that
    follow it; the strings [key] and [ciphertext] are empty at first. *)
Definition main (fuel : nat) (plaintext : std_string)
  (input : list std_string) : result std_string :=
  main_loop fuel plaintext input [] [].

End CipherEncoder.

(** ** Reference definitions, following the specification *)

Module Spec.

(** The test of the decoder as the specification words it: the window at
    position [i] is a glyph run when each of its three glyph-sized pieces
    is a recognized glyph. *)
Definition glyph_run_at (ciphertext : std_string) (i : nat) : bool :=
  DeltaK.isGlyph (take 3 (drop i ciphertext))
  && DeltaK.isGlyph (take 3 (drop (i + 3) ciphertext))
  && DeltaK.isGlyph (take 3 (drop (i + 6) ciphertext)).

(** The test the decoder performs: the first glyph-sized piece only. *)
Definition first_glyph_at (ciphertext : std_string) (i : nat) : bool :=
  DeltaK.isGlyph (take DeltaK.GLYPH_SIZE (drop i ciphertext)).

(** Literal fallback at position [i], for a given test of the window: when
    the test fails, the iteration appends the byte at [i] and leaves [i]
    in place, so that the loop header moves on by one. *)
Definition literal_fallback (recognized : std_string → nat → bool)
  (ciphertext : std_string) (i : nat) : Prop :=
  recognized ciphertext i = false →
  ∀ plaintext, ∃ c,
    ciphertext !! i = Some c
    ∧ DeltaK.decrypt_body ciphertext i plaintext = Ok (i, plaintext ++ [c]).

(** [codeOf]: the trit triple of the letter of index [i]. *)
Definition codeOf (i : Z) : list Z :=
  default [] (DeltaK.TRIT_ALPHABET !! Z.to_nat i).

(** The glyph that stands for the trit [t]. *)
Definition glyph (t : Z) : std_string :=
  default [] (DeltaK.GLYPHS !! Z.to_nat t).

(** The glyph run that stands for a trit triple. *)
Definition glyph_run (ts : list Z) : std_string := ts ≫= glyph.

(** What the static encoder writes for one character. *)
Definition static_chunk (c : Z) : std_string :=
  if isalpha c then glyph_run (codeOf (DeltaK.abcPosition c))
  else if c =? chr " " then [chr "/"]
  else [c].

(** What the decoder makes of the encoding of a letter or of a space: the
    upper-case letter, and '/' for the space. *)
Definition decoded_char (c : Z) : Z :=
  if c =? chr " " then chr "/" else toupper c.

(** The plain alphabet, in alphabetical order. *)
Definition plain_alphabet : std_string := lit "ABCDEFGHIJKLMNOPQRSTUVWXYZ".

(** The keyed ordering as specified for a keyword without repeated letter:
    the letters of the keyword, in upper case and in their order, then the
    letters that are not in the keyword, in alphabetical order. *)
Definition keyed_ordering (key : std_string) : std_string :=
  let keyLetters := toupper <$> key in
  keyLetters ++ filter (λ c, c ∉ keyLetters) plain_alphabet.

(** The number of alphabetic characters of [s]. *)
Definition alpha_count (s : std_string) : nat :=
  length (filter (λ c, isalpha c = true) s).

(** The index of a letter as the specification gives it, whatever its case:
    A is 0, B is 1, and so on to Z, which is 25; -1 for a character that is
    no letter. *)
Definition letter_index (c : Z) : Z :=
  if (chr "A" <=? c) && (c <=? chr "Z") then c - chr "A"
  else if (chr "a" <=? c) && (c <=? chr "z") then c - chr "a"
  else -1.

(** Trit-wise sum modulo 3 of the triples of two letters, each letter being
    taken at its index [letter_index]. *)
Definition additive_code (plainChar keyChar : Z) : list Z :=
  zip_with (λ p q, (p + q) mod 3)
    (codeOf (letter_index plainChar))
    (codeOf (letter_index keyChar)).

(** A letter, for the specification: a character that has an index. *)
Definition is_letter (c : Z) : bool := 0 <=? letter_index c.

(** The number of letters of [s]. *)
Definition letter_count (s : std_string) : nat :=
  length (filter (λ c, is_letter c = true) s).

(** What the keyed-additive encoder is specified to write for the
    character [c] when [k] alphabetic characters came before it: for a
    letter, the glyphs of the sum of its triple and of the triple of the key
    letter [key[k mod len(key)]]. *)
Definition additive_chunk (key : std_string) (k : nat) (c : Z)
  : std_string :=
  if is_letter c then
    let keyChar := default 0 (key !! (k `mod` length key)%nat) in
    glyph_run (additive_code c keyChar)
  else if c =? chr " " then [chr "/"]
  else [c].

(** The specified output of the keyed-additive encoder: the chunk of each
    character, the key position being the number of alphabetic characters
    to its left. *)
Definition additive_output (plaintext key : std_string) : std_string :=
  mjoin (imap (λ i c, additive_chunk key (letter_count (take i plaintext)) c)
           plaintext).

(** The first byte of the UTF-8 encoding of each of the three glyphs. *)
Definition glyph_lead : Z := 226.

(** A piece of ciphertext and the byte the decoder is expected to make of
    it: the glyph run of the letter of index [i] gives the upper-case letter,
    a single byte other than the lead byte of the glyphs gives itself. *)
Inductive decodes_to : std_string → Z → Prop :=
| decodes_letter (i : Z) :
    0 ≤ i < 26 → decodes_to (glyph_run (codeOf i)) (chr "A" + i)
| decodes_literal (d : Z) :
    d ≠ glyph_lead → decodes_to [d] d.

(** The key character that an iteration of the keyed-additive encoder reads:
    [key[keyIndex % key.length()]]. *)
Definition fetch (key : std_string) (keyIndex : Z) : result Z :=
  k ← urem keyIndex (Z.of_nat (length key)) ; char_at key k.

(** A byte that the decoder may write for the ciphertext [ciphertext]: one
    of its bytes, or a character from '@' to 'Z'. *)
Definition decoded_byte (ciphertext : std_string) (b : Z) : Prop :=
  b ∈ ciphertext ∨ chr "@" ≤ b ≤ chr "Z".

(** What the encoder of cipher-encoder.cpp writes for one character with
    the static table. *)
Definition cipher_chunk (c : Z) : std_string :=
  if isalpha c then glyph_run (codeOf (CipherEncoder.abcPosition c)) else [c].

(** The letter substitution of the keyed-permutation mode: a letter is
    replaced by the letter of the plain alphabet that has its rank in the
    keyword-derived ordering; other characters stay. *)
Definition rank (ordering : std_string) (c : Z) : Z :=
  match list_find (λ x, x = c) ordering with
  | Some (i, _) => Z.of_nat i
  | None => -1
  end.

Definition substitute (ordering : std_string) (c : Z) : Z :=
  if isalpha c then chr "A" + rank ordering (toupper c) else c.

(** Spaces replaced by the separator. *)
Definition space_to_slash (c : Z) : Z :=
  if c =? chr " " then chr "/" else c.

End Spec.

(** * Properties *)

(** ** Generic facts about the runtime fragments *)

Section Runtime.

Lemma Z_range_cases (P : Z → Prop) (n : Z) :
  Forall P (seqZ 0 n) → ∀ i, 0 ≤ i < n → P i.
Proof.
  intros HP i Hi. rewrite Forall_forall in HP. apply HP.
  apply elem_of_seqZ. lia.
Qed.

Lemma isalpha_abcPosition (c : Z) :
  isalpha c = true → 0 ≤ DeltaK.abcPosition c < 26.
Proof.
  unfold isalpha, DeltaK.abcPosition, toupper.
  change (chr "A") with 65; change (chr "Z") with 90.
  change (chr "a") with 97; change (chr "z") with 122.
  intros H. destruct (97 <=? c) eqn:E1, (c <=? 122) eqn:E2; simpl in *; lia.
Qed.

(** On letters the code computes the index of the specification. *)
Lemma letter_index_abcPosition (c : Z) :
  isalpha c = true → Spec.letter_index c = DeltaK.abcPosition c.
Proof.
  unfold isalpha, Spec.letter_index, DeltaK.abcPosition, toupper.
  change (chr "A") with 65; change (chr "Z") with 90.
  change (chr "a") with 97; change (chr "z") with 122.
  intros H.
  destruct (65 <=? c) eqn:E1, (c <=? 90) eqn:E2,
    (97 <=? c) eqn:E3, (c <=? 122) eqn:E4; simpl in *; lia.
Qed.

Lemma is_letter_isalpha (c : Z) : Spec.is_letter c = isalpha c.
Proof.
  unfold Spec.is_letter, Spec.letter_index, isalpha.
  change (chr "A") with 65; change (chr "Z") with 90.
  change (chr "a") with 97; change (chr "z") with 122.
  destruct (65 <=? c) eqn:E1, (c <=? 90) eqn:E2,
    (97 <=? c) eqn:E3, (c <=? 122) eqn:E4; simpl;
    first [reflexivity | apply Z.leb_le; lia].
Qed.

Lemma letter_count_alpha_count (s : std_string) :
  Spec.letter_count s = Spec.alpha_count s.
Proof.
  unfold Spec.letter_count, Spec.alpha_count. f_equal.
  apply list_filter_iff. intros c. by rewrite is_letter_isalpha.
Qed.

Lemma fmap_eq_Forall {A B} (f g : A → B) (l : list A) :
  f <$> l = g <$> l ↔ Forall (λ x, f x = g x) l.
Proof.
  induction l as [|x l IH]; [by split|].
  rewrite !fmap_cons, Forall_cons, <- IH. split.
  - by intros [= -> ->].
  - by intros [-> ->].
Qed.

Lemma bind_Ok {A B} (r : result A) (k : A → result B) (b : B) :
  r ≫= k = Ok b → ∃ a, r = Ok a ∧ k a = Ok b.
Proof. destruct r as [a|e]; simpl; [eauto | done]. Qed.

Lemma bind_Err {A B} (r : result A) (k : A → result B) (e : error) :
  r ≫= k = Err e → r = Err e ∨ ∃ a, r = Ok a ∧ k a = Err e.
Proof. destruct r as [a|e']; simpl; [eauto | intros [= ->]; eauto]. Qed.

Lemma substr_Err (s : std_string) (pos n : nat) (e : error) :
  substr s pos n = Err e → e = out_of_range.
Proof. unfold substr. case_decide; congruence. Qed.

Lemma for_each_app {A S} (xs ys : list A) (body : S → A → result S) s :
  for_each (xs ++ ys) body s = s' ← for_each xs body s ; for_each ys body s'.
Proof.
  revert s. induction xs as [|x xs IH]; intros s; simpl; [done|].
  destruct (body s x); simpl; [apply IH | done].
Qed.

(** A loop that only appends to its accumulator can be run on the empty
    accumulator. *)
Lemma for_each_emit {A} (f : A → result std_string) (xs : list A)
  (acc : std_string) :
  for_each xs (λ acc x, g ← f x ; Ok (acc ++ g)) acc
  = (r ← for_each xs (λ acc x, g ← f x ; Ok (acc ++ g)) [] ; Ok (acc ++ r)).
Proof.
  revert acc. induction xs as [|x xs IH]; intros acc; simpl.
  - by rewrite app_nil_r.
  - destruct (f x) as [g|e]; simpl; [|done].
    rewrite (IH (acc ++ g)), (IH g).
    destruct (for_each xs _ []) as [r|e]; simpl; [|done].
    by rewrite app_assoc.
Qed.

Lemma substr_ok (s : std_string) (pos n : nat) :
  (pos ≤ length s)%nat → substr s pos n = Ok (take n (drop pos s)).
Proof. intros H. unfold substr. by rewrite decide_True. Qed.

Lemma substr_throws (s : std_string) (pos n : nat) :
  (length s < pos)%nat → substr s pos n = Err out_of_range.
Proof. intros H. unfold substr. rewrite decide_False; [done | lia]. Qed.

Lemma char_at_lookup (s : std_string) (i : nat) (c : Z) :
  s !! i = Some c → char_at s (Z.of_nat i) = Ok c.
Proof.
  intros H. pose proof (lookup_lt_Some _ _ _ H) as Hlt.
  unfold char_at, index.
  destruct (Z.eqb_spec (Z.of_nat i) (Z.of_nat (length s))); [lia|].
  destruct (Z.ltb_spec (Z.of_nat i) 0); [lia|].
  by rewrite Nat2Z.id, H.
Qed.

Lemma index_lookup {A} (arr : list A) (i : Z) (x : A) :
  0 ≤ i → arr !! Z.to_nat i = Some x → index arr i = Ok x.
Proof.
  intros Hi Hx. unfold index.
  rewrite (proj2 (Z.ltb_ge _ _)) by lia. by rewrite Hx.
Qed.

Lemma char_at_lookup_Z (s : std_string) (i c : Z) :
  0 ≤ i → s !! Z.to_nat i = Some c → char_at s i = Ok c.
Proof.
  intros Hi Hc. rewrite <- (Z2Nat.id i) by lia. by apply char_at_lookup.
Qed.

Lemma store_ok {A} (arr : list A) (i : Z) (x : A) :
  0 ≤ i < Z.of_nat (length arr) →
  store arr i x = Ok (<[Z.to_nat i := x]> arr).
Proof.
  intros Hi. unfold store.
  by rewrite (proj2 (Z.leb_le _ _)), (proj2 (Z.ltb_lt _ _)) by lia.
Qed.

End Runtime.

Ltac range_cases i :=
  match goal with
  | H : _ ≤ i < _ |- _ =>
      revert i H;
      match goal with
      | |- ∀ j, 0 ≤ j < ?n → @?P j =>
          let l := eval vm_compute in (seqZ 0 n) in
          apply (Z_range_cases P n); change (Forall P l)
      end;
      repeat first [apply Forall_nil_2 | apply Forall_cons_2]; cbv beta
  end.

(** ** Worked examples *)

Example encrypt_HI : DeltaK.encrypt (lit "HI") = Ok (lit "▲◆◆▼▲▲").
Proof. vm_compute. reflexivity. Qed.

Example encrypt_HI_THERE :
  DeltaK.encrypt (lit "HI THERE") = Ok (lit "▲◆◆▼▲▲/◆▲◆▲◆◆▲▼◆◆▲▲▲▼◆").
Proof. vm_compute. reflexivity. Qed.

Example encrypt_key_cycles :
  DeltaK.encrypt_key (lit "AAAA") (lit "BC") = Ok (lit "▲▲▲▲▼▼▲▲▲▲▼▼")
  ∧ Spec.additive_output (lit "AAAA") (lit "BC") = lit "▲▲▲▲▼▼▲▲▲▲▼▼".
Proof. split; vm_compute; reflexivity. Qed.

Example encrypt_key_empty_key :
  DeltaK.encrypt_key (lit "a") (lit "") = Err division_by_zero.
Proof. vm_compute. reflexivity. Qed.

Example decrypt_two_glyphs : DeltaK.decrypt (lit "▲▼") = Ok (lit "@").
Proof. vm_compute. reflexivity. Qed.

Example alphabetWithKey_KEY :
  CipherEncoder.alphabetWithKey (lit "key") = lit "KEYABCDFGHIJLMNOPQRSTUVWXZ".
Proof. vm_compute. reflexivity. Qed.

(** ** The code table *)

(** C2.  For every letter index [i] in 0..25, row [i] of [TRIT_ALPHABET] is a
    triple of trits in {0, 1, 2}, [abcSearch] applied to it returns [i], and
    no other row of the table is equal to it. *)
Theorem abcSearch_TRIT_ALPHABET (i : Z) :
  0 ≤ i < DeltaK.ALPHABET_LENGTH →
  ∃ a b c,
    index DeltaK.TRIT_ALPHABET i = Ok [a; b; c]
    ∧ (0 ≤ a ≤ 2 ∧ 0 ≤ b ≤ 2 ∧ 0 ≤ c ≤ 2)
    ∧ DeltaK.abcSearch a b c = i
    ∧ ∀ j, 0 ≤ j < DeltaK.ALPHABET_LENGTH →
           index DeltaK.TRIT_ALPHABET j = Ok [a; b; c] → j = i.
Proof.
  intros Hi. range_cases i.
  all: eexists _, _, _; split; [vm_compute; reflexivity|].
  all: split; [lia|]; split; [vm_compute; reflexivity|].
  all: intros j Hj; range_cases j; vm_compute; congruence.
Qed.

Lemma abcSearch_TRIT_ALPHABET_witness :
  ∃ a b c,
    index DeltaK.TRIT_ALPHABET 7 = Ok [a; b; c]
    ∧ (0 ≤ a ≤ 2 ∧ 0 ≤ b ≤ 2 ∧ 0 ≤ c ≤ 2)
    ∧ DeltaK.abcSearch a b c = 7
    ∧ ∀ j, 0 ≤ j < DeltaK.ALPHABET_LENGTH →
           index DeltaK.TRIT_ALPHABET j = Ok [a; b; c] → j = 7.
Proof.
  apply (abcSearch_TRIT_ALPHABET 7). unfold DeltaK.ALPHABET_LENGTH. lia.
Defined.

(** ** Key validation *)

(** C4, as the code has it.  The additive-mode validator rejects the empty
    key, the permutation-mode validator accepts it; "aabb" is rejected by the
    permutation-mode validator and accepted by the additive-mode one; "a1b"
    is rejected by both. *)
Theorem keyValidation_examples :
  DeltaK.keyValidation (lit "") = false
  ∧ CipherEncoder.keyValidation (lit "") = true
  ∧ CipherEncoder.keyValidation (lit "aabb") = false
  ∧ DeltaK.keyValidation (lit "aabb") = true
  ∧ CipherEncoder.keyValidation (lit "a1b") = false
  ∧ DeltaK.keyValidation (lit "a1b") = false.
Proof. repeat split; vm_compute; reflexivity. Qed.

(** C4 as stated fails: the permutation-mode validator does not reject the
    empty key. *)
Lemma keyValidation_empty_accepted :
  CipherEncoder.keyValidation (lit "") ≠ false.
Proof. vm_compute. discriminate. Qed.

(** ** The separator *)

(** C6, as the code has it.  In the static and in the additive encoder of
    Delta-K, a space met after the prefix [pre] appends the single byte '/'
    to the output (and leaves the key index unchanged); in the encoder of
    cipher-encoder.cpp, used by the keyed-permutation mode, it appends the
    space itself. *)
Theorem space_encoding (pre post key : std_string)
  (alphabet : list std_string) :
  DeltaK.encrypt (pre ++ chr " " :: post)
  = (c ← DeltaK.encrypt pre ;
     for_each post DeltaK.encrypt_char (c ++ [chr "/"]))
  ∧ for_each (pre ++ chr " " :: post) (DeltaK.encrypt_key_char key) ([], 0)
    = (st ← for_each pre (DeltaK.encrypt_key_char key) ([], 0) ;
       for_each post (DeltaK.encrypt_key_char key) (st.1 ++ [chr "/"], st.2))
  ∧ CipherEncoder.encrypt (pre ++ chr " " :: post) alphabet
    = (c ← CipherEncoder.encrypt pre alphabet ;
       for_each post (CipherEncoder.encrypt_char alphabet) (c ++ [chr " "])).
Proof.
  unfold DeltaK.encrypt, CipherEncoder.encrypt.
  rewrite !for_each_app. split; [|split].
  - reflexivity.
  - destruct (for_each pre _ _) as [[c k]|]; reflexivity.
  - reflexivity.
Qed.

(** C6 as stated fails: the keyed-permutation encoder copies a space. *)
Lemma space_kept_by_keyed_permutation :
  CipherEncoder.encrypt_with_key (lit "k e") (lit "key") = Ok (lit "▲▲▼ ▲▲◆")
  ∧ CipherEncoder.encrypt_with_key (lit "k e") (lit "key")
    ≠ Ok (lit "▲▲▼/▲▲◆").
Proof. split; vm_compute; [reflexivity | discriminate]. Qed.

(** ** The decoder *)

Section Decoder.

Import DeltaK.

Lemma isGlyph_length (g : std_string) :
  isGlyph g = true → length g = GLYPH_SIZE.
Proof.
  unfold isGlyph. intros H.
  repeat (apply orb_prop in H as [H|H]);
    apply bool_decide_eq_true in H; injection H as <-; reflexivity.
Qed.

Lemma first_glyph_bound (ciphertext : std_string) (i : nat) :
  Spec.first_glyph_at ciphertext i = true →
  (i + GLYPH_SIZE ≤ length ciphertext)%nat.
Proof.
  intros H. apply isGlyph_length in H.
  rewrite length_take, length_drop in H. unfold GLYPH_SIZE in *. lia.
Qed.

(** An iteration never moves [i] backwards. *)
Lemma decrypt_body_advances ciphertext i plaintext i' plaintext' :
  decrypt_body ciphertext i plaintext = Ok (i', plaintext') → (i ≤ i')%nat.
Proof.
  unfold decrypt_body. intros H.
  apply bind_Ok in H as (c1 & _ & H).
  destruct (isGlyph c1); simpl in H.
  - apply bind_Ok in H as (c2 & _ & H). apply bind_Ok in H as (c3 & _ & H).
    injection H as <- _. lia.
  - apply bind_Ok in H as (c & _ & H). injection H as <- _. lia.
Qed.

(** An iteration fails only by [std::out_of_range]. *)
Lemma decrypt_body_Err ciphertext i plaintext e :
  (i < length ciphertext)%nat →
  decrypt_body ciphertext i plaintext = Err e → e = out_of_range.
Proof.
  unfold decrypt_body. intros Hi H.
  apply bind_Err in H as [H|(c1 & _ & H)]; [by apply substr_Err in H|].
  destruct (isGlyph c1); simpl in H.
  - apply bind_Err in H as [H|(c2 & _ & H)]; [by apply substr_Err in H|].
    apply bind_Err in H as [H|(c3 & _ & H)]; [by apply substr_Err in H|].
    done.
  - destruct (lookup_lt_is_Some_2 ciphertext i Hi) as [c Hc].
    by rewrite (char_at_lookup _ _ _ Hc) in H.
Qed.

(** The iteration at a position whose first piece is not a glyph. *)
Lemma decrypt_body_literal ciphertext i plaintext c :
  ciphertext !! i = Some c →
  Spec.first_glyph_at ciphertext i = false →
  decrypt_body ciphertext i plaintext = Ok (i, plaintext ++ [c]).
Proof.
  intros Hc Hg. pose proof (lookup_lt_Some _ _ _ Hc).
  unfold decrypt_body. rewrite (substr_ok ciphertext i) by lia. simpl.
  unfold Spec.first_glyph_at in Hg. rewrite Hg. simpl.
  by rewrite (char_at_lookup _ _ _ Hc).
Qed.

(** The iteration at a glyph that is followed by fewer than [GLYPH_SIZE]
    bytes: the second read succeeds, the third one throws. *)
Lemma decrypt_body_throws ciphertext i plaintext :
  Spec.first_glyph_at ciphertext i = true →
  (length ciphertext < i + GLYPH_SIZE * 2)%nat →
  decrypt_body ciphertext i plaintext = Err out_of_range.
Proof.
  intros Hg Hshort. pose proof (first_glyph_bound _ _ Hg) as Hlen.
  unfold decrypt_body. rewrite (substr_ok ciphertext i) by lia. simpl.
  unfold Spec.first_glyph_at in Hg. rewrite Hg. simpl.
  rewrite (substr_ok ciphertext (i + GLYPH_SIZE)) by lia. simpl.
  by rewrite substr_throws by done.
Qed.

(** The iteration at a position that holds three pieces of the size of a
    glyph, the first of which is a glyph. *)
Lemma decrypt_body_run g1 g2 g3 rest plaintext :
  isGlyph g1 = true → length g2 = GLYPH_SIZE → length g3 = GLYPH_SIZE →
  decrypt_body (g1 ++ g2 ++ g3 ++ rest) 0 plaintext
  = Ok (8%nat,
        plaintext ++
        [static_cast_char
           (chr "A" + abcSearch (glyphVal g1) (glyphVal g2) (glyphVal g3))]).
Proof.
  intros H1 H2 H3. pose proof (isGlyph_length _ H1) as H1'.
  unfold GLYPH_SIZE in *. unfold decrypt_body, GLYPH_SIZE.
  rewrite (substr_ok _ 0) by lia. simpl.
  rewrite drop_0, take_app_length' by done. rewrite H1. simpl.
  rewrite (substr_ok _ 3) by (rewrite !length_app; lia). simpl.
  rewrite (drop_app_length' g1) by done. rewrite take_app_length' by done.
  rewrite (substr_ok _ 6) by (rewrite !length_app; lia). simpl.
  rewrite (app_assoc g1 g2), (drop_app_length' (g1 ++ g2))
    by (rewrite length_app; lia).
  by rewrite take_app_length' by done.
Qed.

(** The decoder only looks at the input from the current position on. *)
Lemma decrypt_body_shift pre rest i plaintext :
  decrypt_body (pre ++ rest) (length pre + i) plaintext
  = (r ← decrypt_body rest i plaintext ; Ok ((length pre + r.1)%nat, r.2)).
Proof.
  assert (∀ k n, substr (pre ++ rest) (length pre + k) n = substr rest k n)
    as Hsub.
  { intros k n. unfold substr. rewrite length_app, drop_app_add.
    destruct (decide (k ≤ length rest)%nat).
    - by rewrite decide_True by lia.
    - by rewrite decide_False by lia. }
  assert (char_at (pre ++ rest) (Z.of_nat (length pre + i))
          = char_at rest (Z.of_nat i)) as Hch.
  { unfold char_at, index. rewrite length_app.
    destruct (Z.eqb_spec (Z.of_nat i) (Z.of_nat (length rest))).
    - by rewrite (proj2 (Z.eqb_eq _ _)) by lia.
    - rewrite (proj2 (Z.eqb_neq _ _)) by lia.
      rewrite !(proj2 (Z.ltb_ge _ _)) by lia.
      rewrite !Nat2Z.id, lookup_app_r by lia.
      by replace (length pre + i - length pre)%nat with i by lia. }
  unfold decrypt_body.
  rewrite <- !Nat.add_assoc, !Hsub, Hch.
  destruct (substr rest i GLYPH_SIZE) as [c1|]; simpl; [|done].
  destruct (isGlyph c1); simpl.
  - repeat (destruct (substr rest _ _); simpl; try done).
  - by destruct (char_at rest _).
Qed.

Lemma decrypt_loop_shift fuel pre rest i plaintext :
  decrypt_loop fuel (pre ++ rest) (length pre + i) plaintext
  = decrypt_loop fuel rest i plaintext.
Proof.
  revert i plaintext. induction fuel as [|fuel IH]; intros i p; simpl.
  - rewrite length_app.
    destruct (decide (i < length rest)%nat).
    + by rewrite decide_True by lia.
    + by rewrite decide_False by lia.
  - rewrite length_app, decrypt_body_shift.
    destruct (decide (i < length rest)%nat).
    + rewrite decide_True by lia.
      destruct (decrypt_body rest i p) as [[i' p']|]; simpl; [|done].
      rewrite <- Nat.add_assoc. apply IH.
    + by rewrite decide_False by lia.
Qed.

Lemma decrypt_loop_fuel (fuel : nat) ciphertext i plaintext :
  (length ciphertext - i ≤ fuel)%nat →
  decrypt_loop fuel ciphertext i plaintext ≠ Err out_of_fuel.
Proof.
  revert i plaintext. induction fuel as [|fuel IH]; intros i p Hf; simpl.
  - rewrite decide_False; [done | lia].
  - destruct (decide (i < length ciphertext)%nat); [|done].
    destruct (decrypt_body ciphertext i p) as [[i' p']|e] eqn:Hb; simpl.
    + apply IH. apply decrypt_body_advances in Hb. lia.
    + apply decrypt_body_Err in Hb; [by subst e | done].
Qed.

(** The fuel given by [decrypt] is never exhausted: [decrypt] returns a
    string or throws. *)
Lemma decrypt_never_out_of_fuel (ciphertext : std_string) :
  decrypt ciphertext ≠ Err out_of_fuel.
Proof. apply decrypt_loop_fuel. lia. Qed.

End Decoder.

(** ** The static encoder and the round trip through the decoder *)

Section Static.

Import DeltaK.

(** The inner loop of the static encoder, for the letter of index [i]. *)
Lemma letter_code (i : Z) :
  0 ≤ i < 26 →
  for_each columns
    (λ acc j, g ← (t ← trit i j ; index GLYPHS t) ; Ok (acc ++ g)) []
  = Ok (Spec.glyph_run (Spec.codeOf i)).
Proof. intros Hi. range_cases i; vm_compute; reflexivity. Qed.

(** The glyph run of a letter is made of three glyphs, which the decoder
    reads back as the index of the letter. *)
Lemma letter_decode (i : Z) :
  0 ≤ i < 26 →
  let g k := Spec.glyph (default 0 (Spec.codeOf i !! k)) in
  Spec.glyph_run (Spec.codeOf i) = g 0%nat ++ g 1%nat ++ g 2%nat ++ []
  ∧ isGlyph (g 0%nat) = true
  ∧ length (g 1%nat) = GLYPH_SIZE
  ∧ length (g 2%nat) = GLYPH_SIZE
  ∧ static_cast_char
      (chr "A" + abcSearch (glyphVal (g 0%nat)) (glyphVal (g 1%nat))
                   (glyphVal (g 2%nat)))
    = chr "A" + i.
Proof. intros Hi. range_cases i; vm_compute; done. Qed.

Lemma encrypt_char_chunk (ciphertext : std_string) (c : Z) :
  encrypt_char ciphertext c = Ok (ciphertext ++ Spec.static_chunk c).
Proof.
  unfold encrypt_char, Spec.static_chunk.
  destruct (isalpha c) eqn:Hc; [|by destruct (c =? chr " ")].
  rewrite for_each_emit.
  by rewrite (letter_code _ (isalpha_abcPosition _ Hc)).
Qed.

Lemma encrypt_loop_chunks (plaintext ciphertext : std_string) :
  for_each plaintext encrypt_char ciphertext
  = Ok (ciphertext ++ (plaintext ≫= Spec.static_chunk)).
Proof.
  revert ciphertext.
  induction plaintext as [|c plaintext IH]; intros ciphertext; simpl.
  - by rewrite app_nil_r.
  - rewrite encrypt_char_chunk. simpl. rewrite IH. by rewrite app_assoc.
Qed.

(** The static encoder returns for every plaintext, and what it returns is
    the concatenation of the chunks of the characters. *)
Lemma encrypt_chunks (plaintext : std_string) :
  encrypt plaintext = Ok (plaintext ≫= Spec.static_chunk).
Proof. apply encrypt_loop_chunks. Qed.

Lemma isGlyph_head (g : std_string) : isGlyph g = true → head g = Some 226.
Proof.
  unfold isGlyph. intros H.
  repeat (apply orb_prop in H as [H|H]);
    apply bool_decide_eq_true in H; injection H as <-; reflexivity.
Qed.

(** Decoding the chunks of letters and spaces: each letter comes back in
    upper case, each space as the '/' that stands for it. *)
Lemma decrypt_loop_chunks (s : std_string) :
  Forall (λ c, isalpha c = true ∨ c = chr " ") s →
  ∀ fuel plaintext,
    (length (s ≫= Spec.static_chunk) ≤ fuel)%nat →
    decrypt_loop fuel (s ≫= Spec.static_chunk) 0 plaintext
    = Ok (plaintext ++ (Spec.decoded_char <$> s)).
Proof.
  induction 1 as [|c s Hc Hs IH]; intros fuel p Hfuel.
  - destruct fuel; simpl; by rewrite app_nil_r.
  - rewrite bind_cons in *. rewrite length_app in Hfuel.
    rewrite fmap_cons.
    destruct Hc as [Hc | ->].
    + pose proof (isalpha_abcPosition _ Hc) as Hi.
      destruct (letter_decode _ Hi) as (Hrun & Hg0 & Hg1 & Hg2 & Hidx).
      assert (Spec.static_chunk c = Spec.glyph_run (Spec.codeOf (abcPosition c)))
        as Hchunk by (unfold Spec.static_chunk; by rewrite Hc).
      assert (Spec.decoded_char c = chr "A" + abcPosition c) as ->.
      { unfold Spec.decoded_char, abcPosition.
        destruct (Z.eqb_spec c (chr " ")) as [->|]; [done | lia]. }
      assert (length (Spec.static_chunk c) = 9%nat) as Hlen.
      { rewrite Hchunk, Hrun, !length_app, Hg1, Hg2.
        by rewrite (isGlyph_length _ Hg0). }
      destruct fuel as [|fuel]; [lia|].
      cbn [decrypt_loop]. rewrite decide_True by (rewrite length_app; lia).
      rewrite Hchunk at 1. rewrite Hrun, <- !app_assoc.
      rewrite decrypt_body_run by done. rewrite Hidx. simpl.
      change 9%nat with (9 + 0)%nat. rewrite <- Hlen.
      rewrite decrypt_loop_shift, IH by lia. by rewrite <- app_assoc.
    + change (Spec.static_chunk (chr " ")) with [chr "/"] in *.
      change (Spec.decoded_char (chr " ")) with (chr "/").
      destruct fuel as [|fuel]; [simpl in Hfuel; lia|].
      cbn [decrypt_loop]. rewrite decide_True by (simpl; lia).
      rewrite (decrypt_body_literal _ _ _ (chr "/")); [|done|].
      * cbn [mbind result_bind fst snd].
        change (0 + 1)%nat with (length [chr "/"] + 0)%nat.
        rewrite (decrypt_loop_shift fuel [chr "/"] _ 0).
        simpl in Hfuel. rewrite IH by lia. by rewrite <- app_assoc.
      * unfold Spec.first_glyph_at.
        destruct (isGlyph _) eqn:Hg; [|done].
        apply isGlyph_head in Hg. discriminate.
Qed.

(** Round trip through the static cipher: for a string of ASCII letters and
    spaces, [encrypt] returns a ciphertext that [decrypt] turns into the
    string with its letters in upper case and its spaces as '/'. *)
Lemma decrypt_encrypt_letters_spaces (s : std_string) :
  Forall (λ c, isalpha c = true ∨ c = chr " ") s →
  (ciphertext ← encrypt s ; decrypt ciphertext)
  = Ok (Spec.decoded_char <$> s).
Proof.
  intros Hs. rewrite encrypt_chunks. simpl.
  unfold decrypt. by rewrite decrypt_loop_chunks.
Qed.

End Static.

(** ** The keyed-additive encoder *)

Section Additive.

Import DeltaK.

Lemma keyValidation_true (key : std_string) :
  keyValidation key = true ↔ key ≠ [] ∧ Forall (λ c, isalpha c = true) key.
Proof.
  unfold keyValidation. case_bool_decide as Hk.
  - split; [done | by intros []].
  - assert (all_alpha key = true ↔ Forall (λ c, isalpha c = true) key) as ->.
    { clear Hk. induction key as [|c key IH]; simpl.
      - split; [constructor | done].
      - rewrite Forall_cons, <- IH.
        destruct (isalpha c); simpl; intuition congruence. }
    intuition congruence.
Qed.

(** The inner loop of the keyed-additive encoder, for the letters of
    indices [i] (plaintext) and [k] (key). *)
Lemma additive_letter_code (i k : Z) :
  0 ≤ i < 26 → 0 ≤ k < 26 →
  for_each columns
    (λ acc j,
       g ← (p ← trit i j ;
            q ← trit k j ;
            index GLYPHS (Z.rem (p + q) 3)) ;
       Ok (acc ++ g)) []
  = Ok (Spec.glyph_run
          (zip_with (λ p q, (p + q) mod 3) (Spec.codeOf i) (Spec.codeOf k))).
Proof.
  intros Hi Hk. range_cases i; range_cases k; vm_compute; reflexivity.
Qed.

Section WithKey.

Variable key : std_string.
Hypothesis key_valid : keyValidation key = true.

Lemma key_length_pos : (0 < length key)%nat.
Proof.
  apply keyValidation_true in key_valid as [Hne _].
  destruct key; [done | simpl; lia].
Qed.

Lemma key_cycle (keyIndex : Z) :
  0 ≤ keyIndex →
  ∃ keyChar,
    key !! (Z.to_nat keyIndex `mod` length key)%nat = Some keyChar
    ∧ isalpha keyChar = true
    ∧ (k ← urem keyIndex (Z.of_nat (length key)) ; char_at key k)
      = Ok keyChar.
Proof.
  intros Hk. pose proof key_length_pos as Hlen.
  assert (Z.to_nat keyIndex `mod` length key < length key)%nat as Hlt
    by (apply Nat.mod_upper_bound; lia).
  destruct (lookup_lt_is_Some_2 _ _ Hlt) as [keyChar Hc].
  exists keyChar. split; [done|]. split.
  - apply keyValidation_true in key_valid as [_ Hall].
    rewrite Forall_forall in Hall. apply Hall.
    by eapply list_elem_of_lookup_2.
  - unfold urem. rewrite (proj2 (Z.eqb_neq _ _)) by lia. simpl.
    replace (keyIndex `mod` Z.of_nat (length key))
      with (Z.of_nat (Z.to_nat keyIndex `mod` length key))
      by (rewrite Nat2Z.inj_mod; f_equal; lia).
    by apply char_at_lookup.
Qed.

(** One iteration on a letter, the key index being [keyIndex]. *)
Lemma encrypt_key_char_letter ciphertext (keyIndex c : Z) :
  0 ≤ keyIndex → isalpha c = true →
  encrypt_key_char key (ciphertext, keyIndex) c
  = Ok (ciphertext ++ Spec.additive_chunk key (Z.to_nat keyIndex) c,
        size_t_wrap (keyIndex + 1)).
Proof.
  intros Hk Hc. destruct (key_cycle _ Hk) as (keyChar & Hlook & Ha & Hget).
  unfold encrypt_key_char, Spec.additive_chunk.
  rewrite is_letter_isalpha, Hc, Hlook.
  apply bind_Ok in Hget as (k & Hrem & Hget).
  rewrite Hrem. cbn [mbind result_bind]. rewrite Hget.
  cbn [mbind result_bind]. rewrite for_each_emit.
  rewrite (additive_letter_code _ _ (isalpha_abcPosition _ Hc)
             (isalpha_abcPosition _ Ha)).
  unfold Spec.additive_code. cbn [default from_option id].
  by rewrite !letter_index_abcPosition.
Qed.

(** One iteration on any other character. *)
Lemma encrypt_key_char_other ciphertext (keyIndex c : Z) (k : nat) :
  isalpha c = false →
  encrypt_key_char key (ciphertext, keyIndex) c
  = Ok (ciphertext ++ Spec.additive_chunk key k c, keyIndex).
Proof.
  intros Hc. unfold encrypt_key_char, Spec.additive_chunk.
  rewrite is_letter_isalpha, Hc. by destruct (c =? chr " ").
Qed.

(** The loop never fails, whatever the plaintext. *)
Lemma encrypt_key_loop_total (plaintext ciphertext : std_string)
  (keyIndex : Z) :
  0 ≤ keyIndex →
  ∃ ciphertext' keyIndex',
    for_each plaintext (encrypt_key_char key) (ciphertext, keyIndex)
    = Ok (ciphertext', keyIndex').
Proof.
  revert ciphertext keyIndex.
  induction plaintext as [|c plaintext IH]; intros acc k Hk;
    cbn [for_each].
  - eauto.
  - destruct (isalpha c) eqn:Hc.
    + rewrite encrypt_key_char_letter by done. cbn [mbind result_bind].
      apply IH. unfold size_t_wrap, size_t_max.
      apply Z.mod_pos_bound. lia.
    + rewrite (encrypt_key_char_other _ _ _ 0) by done.
      cbn [mbind result_bind]. by apply IH.
Qed.

(** The loop writes the specified chunks, [k] being the number of letters
    met so far. *)
Lemma encrypt_key_loop_chunks (plaintext ciphertext : std_string)
  (k : nat) :
  Z.of_nat (k + Spec.alpha_count plaintext) < size_t_max →
  for_each plaintext (encrypt_key_char key) (ciphertext, Z.of_nat k)
  = Ok (ciphertext ++
        mjoin (imap (λ i c, Spec.additive_chunk key
                              (k + Spec.alpha_count (take i plaintext)) c)
                 plaintext),
        Z.of_nat (k + Spec.alpha_count plaintext)).
Proof.
  revert ciphertext k.
  induction plaintext as [|c plaintext IH]; intros acc k Hk.
  - simpl. by rewrite app_nil_r, Nat.add_0_r.
  - rewrite imap_cons. cbn [for_each mjoin list_join take].
    unfold Spec.alpha_count in *. rewrite filter_nil, Nat.add_0_r.
    simpl length at 1.
    destruct (isalpha c) eqn:Hc.
    + rewrite filter_cons_True in Hk by done. simpl in Hk.
      rewrite encrypt_key_char_letter by (done || lia).
      cbn [mbind result_bind]. rewrite Nat2Z.id.
      replace (size_t_wrap (Z.of_nat k + 1)) with (Z.of_nat (S k)).
      2:{ unfold size_t_wrap. rewrite Z.mod_small; lia. }
      rewrite IH by (rewrite <- Nat.add_succ_comm in Hk; lia).
      rewrite <- app_assoc. f_equal. f_equal.
      * do 3 f_equal. apply imap_ext. intros i x _. simpl.
        rewrite filter_cons_True by done. simpl. f_equal. lia.
      * rewrite filter_cons_True by done. simpl. lia.
    + rewrite filter_cons_False in Hk by (by rewrite Hc).
      rewrite (encrypt_key_char_other _ _ _ k) by done.
      cbn [mbind result_bind].
      rewrite IH by done.
      rewrite <- app_assoc. f_equal. f_equal.
      * do 3 f_equal. apply imap_ext. intros i x _. simpl.
        by rewrite filter_cons_False by (by rewrite Hc).
      * by rewrite filter_cons_False by (by rewrite Hc).
Qed.

End WithKey.

End Additive.

(** C1 as stated does not hold of a string with a space.  The static
    encoding of "A B" is "▲▲▼/▲▲◆", and the decoder turns it into "A/B", not
    into "A B": the '/' written for the space is copied through, the decoder
    having no case that turns it back into a space. *)
Theorem decrypt_encrypt_keeps_separator :
  DeltaK.encrypt (lit "A B") = Ok (lit "▲▲▼/▲▲◆")
  ∧ DeltaK.decrypt (lit "▲▲▼/▲▲◆") = Ok (lit "A/B")
  ∧ DeltaK.decrypt (lit "▲▲▼/▲▲◆") ≠ Ok (lit "A B").
Proof. repeat split; vm_compute; (reflexivity || discriminate). Qed.

(** C1, as the code has it.  For every string of ASCII letters and spaces,
    decoding the static encoding of the string gives the string with its
    letters in upper case and each space as '/'.  This is the string up to
    case-folding to upper case exactly when the string holds no space. *)
Theorem decrypt_encrypt_static (s : std_string) :
  Forall (λ c, Spec.is_letter c = true ∨ c = chr " ") s →
  (ciphertext ← DeltaK.encrypt s ; DeltaK.decrypt ciphertext)
  = Ok (Spec.decoded_char <$> s)
  ∧ ((ciphertext ← DeltaK.encrypt s ; DeltaK.decrypt ciphertext)
     = Ok (toupper <$> s)
     ↔ chr " " ∉ s).
Proof.
  intros Hs.
  assert ((ciphertext ← DeltaK.encrypt s ; DeltaK.decrypt ciphertext)
          = Ok (Spec.decoded_char <$> s)) as ->.
  { apply decrypt_encrypt_letters_spaces.
    eapply Forall_impl; [exact Hs|]. intros c. simpl.
    by rewrite is_letter_isalpha. }
  split; [done|]. clear Hs. split.
  - intros [= Heq]. apply fmap_eq_Forall in Heq.
    intros Hin. rewrite Forall_forall in Heq. by specialize (Heq _ Hin).
  - intros Hin. f_equal. apply fmap_eq_Forall, Forall_forall.
    intros c Hc. unfold Spec.decoded_char.
    destruct (Z.eqb_spec c (chr " ")) as [->|]; done.
Qed.

Lemma decrypt_encrypt_static_witness :
  (ciphertext ← DeltaK.encrypt (lit "Hi you") ; DeltaK.decrypt ciphertext)
  = Ok (Spec.decoded_char <$> lit "Hi you")
  ∧ ((ciphertext ← DeltaK.encrypt (lit "Hi you") ;
      DeltaK.decrypt ciphertext)
     = Ok (toupper <$> lit "Hi you")
     ↔ chr " " ∉ lit "Hi you").
Proof.
  apply (decrypt_encrypt_static (lit "Hi you")).
  repeat (constructor; [by (left + right)|]). constructor.
Defined.

(** C5.  For every plaintext and every non-empty alphabetic key, the
    keyed-additive encoder returns the specified output: the [k]-th
    alphabetic character of the plaintext, counting alphabetic characters
    only, becomes the three glyphs of the trit-wise sum modulo 3 of its
    triple and of the triple of [key[k mod len(key)]]; a space becomes '/';
    every other character is copied and leaves the key position alone.
    The plaintext is a [std::string], so its length fits in a [size_t]. *)
Theorem encrypt_key_additive (plaintext key : std_string) :
  key ≠ [] →
  Forall (λ c, isalpha c = true) key →
  Z.of_nat (length plaintext) < size_t_max →
  DeltaK.encrypt_key plaintext key = Ok (Spec.additive_output plaintext key).
Proof.
  intros Hne Halpha Hlen.
  assert (DeltaK.keyValidation key = true) as Hkey
    by by apply keyValidation_true.
  unfold DeltaK.encrypt_key, Spec.additive_output.
  pose proof (length_filter (λ c, isalpha c = true) plaintext) as Hle.
  change (0 : Z) with (Z.of_nat 0).
  rewrite encrypt_key_loop_chunks by (done || (unfold Spec.alpha_count; lia)).
  cbn [mbind result_bind fst app]. do 2 f_equal.
  apply imap_ext. intros i c _. simpl. by rewrite letter_count_alpha_count.
Qed.

Lemma encrypt_key_additive_witness :
  DeltaK.encrypt_key (lit "AAAA b!") (lit "BC")
  = Ok (Spec.additive_output (lit "AAAA b!") (lit "BC")).
Proof.
  apply (encrypt_key_additive (lit "AAAA b!") (lit "BC")).
  - discriminate.
  - repeat constructor.
  - vm_compute. reflexivity.
Defined.

(** ** The keyword alphabet and the keyed code table *)

Section Keyword.

Import CipherEncoder.

Lemma size_list_to_set_NoDup (l : list Z) :
  size (list_to_set l : gset Z) = length l ↔ NoDup l.
Proof.
  split; [|apply size_list_to_set].
  assert (∀ k : list Z, size (list_to_set k : gset Z) ≤ length k)%nat
    as Hle.
  { induction k as [|x k IH]; [done|].
    rewrite list_to_set_cons, size_union_alt, size_singleton. simpl.
    pose proof (subseteq_size (list_to_set k ∖ {[x]}) (list_to_set k : gset Z)
                  (subseteq_difference_l _ _ _ (reflexivity _))).
    lia. }
  induction l as [|x l IH]; intros Hsize; [constructor|].
  rewrite list_to_set_cons in Hsize. simpl in Hsize.
  destruct (decide (x ∈ l)) as [Hin|Hin].
  - assert ({[x]} ∪ list_to_set l = (list_to_set l : gset Z)) as Heq
      by by apply subseteq_union_1_L, singleton_subseteq_l, elem_of_list_to_set.
    rewrite Heq in Hsize. specialize (Hle l). lia.
  - rewrite size_union, size_singleton in Hsize
      by by apply disjoint_singleton_l; rewrite elem_of_list_to_set.
    constructor; [done | apply IH; lia].
Qed.

Lemma keyValidation_loop_spec (key upperKey : std_string) :
  keyValidation_loop key upperKey
  = if forallb isalpha key then Some (upperKey ++ (toupper <$> key))
    else None.
Proof.
  revert upperKey. induction key as [|c key IH]; intros upperKey; simpl.
  - by rewrite app_nil_r.
  - destruct (isalpha c); simpl; [|done].
    rewrite IH. destruct (forallb isalpha key); [|done].
    by rewrite <- app_assoc.
Qed.

(** The permutation-mode validator accepts exactly the keys made of
    letters no two of which are equal up to case. *)
Lemma keyValidation_unique (key : std_string) :
  keyValidation key = true
  ↔ Forall (λ c, isalpha c = true) key ∧ NoDup (toupper <$> key).
Proof.
  assert (forallb isalpha key = true ↔ Forall (λ c, isalpha c = true) key)
    as Hforall.
  { induction key as [|c key IH]; simpl.
    - split; [constructor | done].
    - rewrite Forall_cons, <- IH, andb_true_iff. tauto. }
  unfold keyValidation. rewrite keyValidation_loop_spec. simpl.
  destruct (forallb isalpha key) eqn:Ha.
  - rewrite bool_decide_eq_true, size_list_to_set_NoDup. tauto.
  - split; [done|]. intros [Hall _]. apply Hforall in Hall. congruence.
Qed.

Lemma filter_all {A} (P : A → Prop) `{∀ x, Decision (P x)} (l : list A) :
  (∀ x, x ∈ l → P x) → filter P l = l.
Proof.
  induction l as [|x l IH]; intros Hall; [done|].
  rewrite filter_cons_True by (apply Hall; left).
  f_equal. apply IH. intros y Hy. apply Hall. by right.
Qed.

Lemma erase_first_filter (c : Z) (alphabet : std_string) :
  NoDup alphabet → erase_first c alphabet = filter (λ x, x ≠ c) alphabet.
Proof.
  induction 1 as [|a l Hnotin Hnodup IH]; simpl; [done|].
  destruct (Z.eqb_spec a c) as [->|Hne].
  - rewrite filter_cons_False by naive_solver.
    symmetry. apply filter_all. intros x Hx ->. done.
  - rewrite filter_cons_True by done. by rewrite IH.
Qed.

Lemma erase_all_filter (keyLetters alphabet : std_string) :
  NoDup alphabet →
  foldl (λ alphabet c, erase_first c alphabet) alphabet keyLetters
  = filter (λ x, x ∉ keyLetters) alphabet.
Proof.
  revert alphabet.
  induction keyLetters as [|c keyLetters IH]; intros alphabet Hnodup; simpl.
  - symmetry. apply filter_all. intros x _. apply not_elem_of_nil.
  - rewrite erase_first_filter by done.
    rewrite IH by (by apply NoDup_filter).
    rewrite list_filter_filter. apply list_filter_iff.
    intros x. rewrite not_elem_of_cons. tauto.
Qed.

Lemma plain_alphabet_NoDup : NoDup Spec.plain_alphabet.
Proof. apply (bool_decide_unpack _). by vm_compute. Qed.

Lemma plain_alphabet_elem (c : Z) :
  c ∈ Spec.plain_alphabet ↔ chr "A" ≤ c ≤ chr "Z".
Proof.
  split.
  - intros Hc. revert c Hc. apply Forall_forall.
    apply (bool_decide_unpack _). by vm_compute.
  - change (chr "A") with 65. change (chr "Z") with 90.
    intros Hc. assert (0 ≤ c - 65 < 26) as Hi by lia.
    replace c with (65 + (c - 65)) by lia.
    clear Hc. revert Hi. generalize (c - 65). clear c. intros i Hi.
    range_cases i; apply (bool_decide_unpack _); by vm_compute.
Qed.

Lemma toupper_letter (c : Z) :
  isalpha c = true → toupper c ∈ Spec.plain_alphabet.
Proof.
  intros Hc. apply plain_alphabet_elem.
  pose proof (isalpha_abcPosition c Hc) as Hi.
  unfold DeltaK.abcPosition in Hi.
  change (chr "A") with 65 in *. change (chr "Z") with 90. lia.
Qed.

(** For every key, the result of [alphabetWithKey] is the upper-cased key
    followed by the letters it does not contain, in alphabetical order. *)
Lemma alphabetWithKey_ordering (key : std_string) :
  alphabetWithKey key = Spec.keyed_ordering key.
Proof.
  unfold alphabetWithKey, Spec.keyed_ordering. f_equal.
  apply erase_all_filter, plain_alphabet_NoDup.
Qed.

Lemma alphabetWithKey_Permutation (key : std_string) :
  keyValidation key = true → alphabetWithKey key ≡ₚ Spec.plain_alphabet.
Proof.
  intros [Hall Hnodup]%keyValidation_unique.
  rewrite alphabetWithKey_ordering. unfold Spec.keyed_ordering.
  rewrite <- (filter_app_complement (λ c, c ∈ toupper <$> key)
                Spec.plain_alphabet) at 2.
  apply Permutation_app; [|done].
  apply NoDup_Permutation;
    [done | apply NoDup_filter, plain_alphabet_NoDup |].
  intros x. rewrite list_elem_of_filter. split; [|tauto].
  intros Hx. split; [done|].
  apply list_elem_of_fmap in Hx as (c & -> & Hc).
  rewrite Forall_forall in Hall. by apply toupper_letter, Hall.
Qed.

(** The table built from an ordering that is a permutation of A-Z. *)
Section Table.

Variable keyedAlphabet : std_string.
Hypothesis ordering : keyedAlphabet ≡ₚ Spec.plain_alphabet.

Lemma ordering_length : length keyedAlphabet = 26%nat.
Proof. by rewrite ordering. Qed.

Lemma ordering_letter (i : nat) (c : Z) :
  keyedAlphabet !! i = Some c → 0 ≤ c - chr "A" < 26.
Proof.
  intros Hc%list_elem_of_lookup_2. rewrite ordering in Hc.
  apply plain_alphabet_elem in Hc.
  change (chr "A") with 65 in *. change (chr "Z") with 90 in *. lia.
Qed.

Lemma ordering_inj (i j : nat) (c : Z) :
  keyedAlphabet !! i = Some c → keyedAlphabet !! j = Some c → i = j.
Proof.
  apply NoDup_lookup. rewrite ordering. apply plain_alphabet_NoDup.
Qed.

(** The iterations [ranks] of the loop of [keyedCipherAlphabet]: each one
    stores the static glyph run of its rank at the slot of its letter,
    and the other slots are left as they were. *)
Lemma keyedCipherAlphabet_loop (ranks : list Z) (output : list std_string) :
  NoDup ranks → (∀ i, i ∈ ranks → 0 ≤ i < 26) → length output = 26%nat →
  ∃ output',
    for_each ranks
      (λ output i,
         c ← char_at keyedAlphabet i ;
         let index_ := c - chr "A" in
         g ← index CIPHER_ALPHABET i ;
         store output index_ g)
      output
    = Ok output'
    ∧ length output' = 26%nat
    ∧ (∀ i c, i ∈ ranks → keyedAlphabet !! Z.to_nat i = Some c →
              output' !! Z.to_nat (c - chr "A")
              = CIPHER_ALPHABET !! Z.to_nat i)
    ∧ (∀ j, (∀ i c, i ∈ ranks → keyedAlphabet !! Z.to_nat i = Some c →
                    Z.to_nat (c - chr "A") ≠ j) →
            output' !! j = output !! j).
Proof.
  revert output.
  induction ranks as [|i ranks IH]; intros output Hnodup Hrange Hlen.
  - exists output. split; [done|]. split; [done|].
    split; [|done]. intros i c Hi. by apply elem_of_nil in Hi.
  - apply NoDup_cons in Hnodup as [Hi Hnodup].
    assert (0 ≤ i < 26) as Hi26 by (apply Hrange; left).
    pose proof ordering_length as Hord.
    destruct (lookup_lt_is_Some_2 keyedAlphabet (Z.to_nat i)) as [c Hc];
      [lia|].
    destruct (lookup_lt_is_Some_2 CIPHER_ALPHABET (Z.to_nat i)) as [g Hg];
      [simpl; lia|].
    pose proof (ordering_letter _ _ Hc) as Hpos.
    set (slot := Z.to_nat (c - chr "A")).
    destruct (IH (<[slot := g]> output)) as (output' & Hrun & Hlen' & Hset & Hkeep);
      [done | by intros; apply Hrange; right | by rewrite length_insert |].
    exists output'. split; [|split; [done|split]].
    + cbn [for_each].
      rewrite (char_at_lookup_Z _ _ c) by (lia || done).
      cbn [mbind result_bind].
      rewrite (index_lookup _ _ g) by (lia || done).
      cbn [mbind result_bind].
      rewrite store_ok by lia. exact Hrun.
    + intros i' c' [->|Hi']%elem_of_cons Hc'.
      * assert (c' = c) as -> by congruence.
        rewrite Hkeep.
        -- rewrite Hg. apply list_lookup_insert_eq. subst slot. lia.
        -- intros j d Hj Hd Heq.
           pose proof (ordering_letter _ _ Hd).
           assert (d = c) as -> by (subst slot; lia).
           assert (Z.to_nat j = Z.to_nat i) by by eapply ordering_inj.
           assert (j = i) as ->
             by (specialize (Hrange j ltac:(by right)); lia).
           done.
      * by apply Hset.
    + intros j Hj. rewrite Hkeep.
      * apply list_lookup_insert_ne. apply (Hj i c); [left | done].
      * intros i' c' Hi' Hc'. apply (Hj i' c'); [by right | done].
Qed.

(** [keyedCipherAlphabet] succeeds on [keyedAlphabet], and slot [c - 'A']
    of the table holds the static glyph run of the rank of [c]. *)
Lemma keyedCipherAlphabet_table :
  ∃ table,
    keyedCipherAlphabet keyedAlphabet (replicate 26 []) = Ok table
    ∧ length table = 26%nat
    ∧ ∀ (i : nat) (c : Z),
        keyedAlphabet !! i = Some c →
        index table (c - chr "A") = index CIPHER_ALPHABET (Z.of_nat i).
Proof.
  destruct (keyedCipherAlphabet_loop (seqZ 0 26) (replicate 26 []))
    as (table & Hrun & Hlen & Hset & _).
  - apply NoDup_seqZ.
  - intros i Hi%elem_of_seqZ. lia.
  - apply length_replicate.
  - exists table. split; [done|]. split; [done|]. intros i c Hc.
    pose proof (lookup_lt_Some _ _ _ Hc) as Hi.
    rewrite ordering_length in Hi.
    pose proof (ordering_letter _ _ Hc) as Hpos.
    unfold index. rewrite !(proj2 (Z.ltb_ge _ _)) by lia.
    rewrite (Hset (Z.of_nat i) c); [done | | by rewrite Nat2Z.id].
    apply elem_of_seqZ. lia.
Qed.

End Table.

(** The encoder of cipher-encoder.cpp returns for every plaintext once the
    table has its 26 entries. *)
Lemma encrypt_table_total (alphabet : list std_string)
  (plaintext ciphertext : std_string) :
  length alphabet = 26%nat →
  ∃ ciphertext',
    for_each plaintext (encrypt_char alphabet) ciphertext = Ok ciphertext'.
Proof.
  intros Hlen. revert ciphertext.
  induction plaintext as [|c plaintext IH]; intros acc; cbn [for_each];
    [eauto|].
  assert (∃ acc', encrypt_char alphabet acc c = Ok acc') as [acc' ->].
  { unfold encrypt_char. destruct (isalpha c) eqn:Hc; [|eauto].
    pose proof (isalpha_abcPosition c Hc) as Hpos.
    change (DeltaK.abcPosition c) with (abcPosition c) in Hpos.
    destruct (lookup_lt_is_Some_2 alphabet (Z.to_nat (abcPosition c)))
      as [g Hg]; [lia|].
    rewrite (index_lookup _ _ g) by (lia || done). simpl. eauto. }
  cbn [mbind result_bind]. apply IH.
Qed.

End Keyword.

(** C3, as the code has it.  For every keyword accepted by the
    permutation-mode validator, that is made of alphabetic characters no two
    of which are the same letter, [alphabetWithKey] returns a string of
    length exactly 26 that is a permutation of A-Z: the letters of the
    keyword in upper case and in their order, followed by the remaining
    letters in alphabetical order. *)
Theorem alphabetWithKey_valid_key (key : std_string) :
  CipherEncoder.keyValidation key = true →
  length (CipherEncoder.alphabetWithKey key) = 26%nat
  ∧ CipherEncoder.alphabetWithKey key ≡ₚ Spec.plain_alphabet
  ∧ CipherEncoder.alphabetWithKey key = Spec.keyed_ordering key.
Proof.
  intros Hkey. pose proof (alphabetWithKey_Permutation key Hkey) as Hperm.
  split; [by rewrite Hperm|]. split; [done|].
  apply alphabetWithKey_ordering.
Qed.

Lemma alphabetWithKey_valid_key_witness :
  length (CipherEncoder.alphabetWithKey (lit "Key")) = 26%nat
  ∧ CipherEncoder.alphabetWithKey (lit "Key") ≡ₚ Spec.plain_alphabet
  ∧ CipherEncoder.alphabetWithKey (lit "Key") = Spec.keyed_ordering (lit "Key").
Proof. apply (alphabetWithKey_valid_key (lit "Key")). reflexivity. Defined.

(** C3 as stated fails: a repeated letter stays in the result, which is then
    longer than 26 and no permutation of A-Z. *)
Lemma alphabetWithKey_repeated_letter :
  CipherEncoder.alphabetWithKey (lit "aa") = lit "AABCDEFGHIJKLMNOPQRSTUVWXYZ"
  ∧ length (CipherEncoder.alphabetWithKey (lit "aa")) ≠ 26%nat.
Proof. split; vm_compute; [reflexivity | discriminate]. Qed.



(** C9, as the code has it.  Every encode path returns a ciphertext on
    well-formed input: the static encoders for every plaintext, the
    keyed-additive encoder for every plaintext and every key that is
    non-empty and alphabetic (so that the key-cycling modulus is not zero and
    the table index of the key letter is in 0..25), the keyed-permutation
    path for every plaintext and every key that its validator accepts. *)
Theorem encoders_total (plaintext key : std_string) :
  (∃ ciphertext, DeltaK.encrypt plaintext = Ok ciphertext)
  ∧ (∃ ciphertext,
       CipherEncoder.encrypt plaintext CipherEncoder.CIPHER_ALPHABET
       = Ok ciphertext)
  ∧ (key ≠ [] → Forall (λ c, isalpha c = true) key →
     ∃ ciphertext, DeltaK.encrypt_key plaintext key = Ok ciphertext)
  ∧ (CipherEncoder.keyValidation key = true →
     ∃ ciphertext,
       CipherEncoder.encrypt_with_key plaintext key = Ok ciphertext).
Proof.
  split; [|split; [|split]].
  - rewrite encrypt_chunks. eauto.
  - by apply encrypt_table_total.
  - intros Hne Halpha.
    assert (DeltaK.keyValidation key = true) as Hkey
      by by apply keyValidation_true.
    unfold DeltaK.encrypt_key.
    destruct (encrypt_key_loop_total key Hkey plaintext [] 0)
      as (ciphertext & keyIndex & ->); [lia|].
    simpl. eauto.
  - intros Hkey. unfold CipherEncoder.encrypt_with_key.
    pose proof (alphabetWithKey_Permutation key Hkey) as Hperm.
    destruct (keyedCipherAlphabet_table _ Hperm) as (table & -> & Hlen & _).
    cbn [mbind result_bind]. by apply encrypt_table_total.
Qed.

Lemma encoders_total_witness :
  (∃ ciphertext, DeltaK.encrypt (lit "Hi there!") = Ok ciphertext)
  ∧ (∃ ciphertext,
       CipherEncoder.encrypt (lit "Hi there!") CipherEncoder.CIPHER_ALPHABET
       = Ok ciphertext)
  ∧ (∃ ciphertext,
       DeltaK.encrypt_key (lit "Hi there!") (lit "Key") = Ok ciphertext)
  ∧ (∃ ciphertext,
       CipherEncoder.encrypt_with_key (lit "Hi there!") (lit "Key")
       = Ok ciphertext).
Proof.
  destruct (encoders_total (lit "Hi there!") (lit "Key"))
    as (H1 & H2 & H3 & H4).
  split; [exact H1|]. split; [exact H2|]. split.
  - apply H3; [discriminate | repeat constructor].
  - apply H4. reflexivity.
Defined.

(** C9 as stated fails: a key that is not empty is not enough.  With the key
    "1" the row read in [TRIT_ALPHABET] for the key letter is row
    ['1' - 'A'], which is -16, outside the table. *)
Lemma encrypt_key_non_alphabetic_key :
  lit "1" ≠ []
  ∧ DeltaK.abcPosition (chr "1") = -16
  ∧ DeltaK.encrypt_key (lit "a") (lit "1") = Err index_out_of_bounds.
Proof. repeat split; vm_compute; (reflexivity || discriminate). Qed.

(** C8, as the code has it.  Whenever the first glyph-sized piece of the
    window at the current position [i] is not a recognized glyph, the
    iteration copies the single byte at [i] to the output and the loop goes
    on at [i + 1]; it does not fail there. *)
Theorem decrypt_literal_fallback (ciphertext : std_string) (i : nat) :
  (i < length ciphertext)%nat →
  Spec.first_glyph_at ciphertext i = false →
  ∀ plaintext fuel, ∃ c,
    ciphertext !! i = Some c
    ∧ DeltaK.decrypt_body ciphertext i plaintext = Ok (i, plaintext ++ [c])
    ∧ DeltaK.decrypt_loop (S fuel) ciphertext i plaintext
      = DeltaK.decrypt_loop fuel ciphertext (i + 1) (plaintext ++ [c]).
Proof.
  intros Hi Hg p fuel.
  destruct (lookup_lt_is_Some_2 ciphertext i Hi) as [c Hc].
  pose proof (decrypt_body_literal _ _ p _ Hc Hg) as Hb.
  exists c. split; [done|]. split; [done|].
  simpl. rewrite decide_True by done. by rewrite Hb.
Qed.

Lemma decrypt_literal_fallback_witness :
  ∃ c,
    lit "/A" !! 0%nat = Some c
    ∧ DeltaK.decrypt_body (lit "/A") 0 [] = Ok (0%nat, [] ++ [c])
    ∧ DeltaK.decrypt_loop 2 (lit "/A") 0 []
      = DeltaK.decrypt_loop 1 (lit "/A") (0 + 1) ([] ++ [c]).
Proof.
  apply (decrypt_literal_fallback (lit "/A") 0); [simpl; lia | reflexivity].
Defined.

(** C8 as stated fails: the window "▲abcdef" is not made of three glyphs, yet
    the decoder does not copy its first byte; it writes '@' for the whole
    window and skips it. *)
Lemma decrypt_no_fallback_after_first_glyph :
  ¬ Spec.literal_fallback Spec.glyph_run_at (lit "▲abcdef") 0
  ∧ DeltaK.decrypt_body (lit "▲abcdef") 0 [] = Ok (8%nat, lit "@").
Proof.
  split; [|vm_compute; reflexivity].
  intros H. destruct (H eq_refl []) as (c & _ & Hc).
  vm_compute in Hc. discriminate.
Qed.

(** C10.  The decoder is partial: on a ciphertext made of one glyph followed
    by fewer than [GLYPH_SIZE] bytes, such as a single glyph, the read at
    offset [i + 2 * GLYPH_SIZE] starts past the end of the input and
    [decrypt] throws [std::out_of_range] instead of returning a string. *)
Theorem decrypt_throws_on_lone_glyph (g tail : std_string) :
  g ∈ DeltaK.GLYPHS →
  (length tail < DeltaK.GLYPH_SIZE)%nat →
  substr (g ++ tail) (0 + DeltaK.GLYPH_SIZE * 2) DeltaK.GLYPH_SIZE
  = Err out_of_range
  ∧ DeltaK.decrypt (g ++ tail) = Err out_of_range.
Proof.
  intros Hg Ht.
  assert (length g = 3%nat ∧ DeltaK.isGlyph g = true) as [Hlen Hglyph].
  { unfold DeltaK.GLYPHS in Hg. rewrite !elem_of_cons in Hg.
    destruct Hg as [->|[->|[->|Hg]]]; [by vm_compute..|].
    by apply elem_of_nil in Hg. }
  assert (length (g ++ tail) < 6)%nat as Hshort.
  { rewrite length_app. unfold DeltaK.GLYPH_SIZE in Ht. lia. }
  split; [apply substr_throws; simpl; lia|].
  assert (DeltaK.decrypt_body (g ++ tail) 0 [] = Err out_of_range) as Hb.
  { apply decrypt_body_throws; [|simpl; lia].
    unfold Spec.first_glyph_at, DeltaK.GLYPH_SIZE.
    by rewrite drop_0, take_app_length'. }
  unfold DeltaK.decrypt.
  destruct (length (g ++ tail)) as [|fuel] eqn:Hl;
    [rewrite length_app in Hl; lia|].
  simpl. rewrite decide_True by lia. by rewrite Hb.
Qed.

Lemma decrypt_throws_on_lone_glyph_witness :
  substr (lit "▲" ++ []) (0 + DeltaK.GLYPH_SIZE * 2) DeltaK.GLYPH_SIZE
  = Err out_of_range
  ∧ DeltaK.decrypt (lit "▲" ++ []) = Err out_of_range.
Proof.
  apply (decrypt_throws_on_lone_glyph (lit "▲") []).
  - apply list_elem_of_here.
  - unfold DeltaK.GLYPH_SIZE. simpl. lia.
Defined.


(** * Further properties of the code *)

From Stdlib Require Import ZifyBool.

(** ** More on the decoder *)

Section DecoderChunks.

Import DeltaK.

(** Enough fuel is as good as more fuel. *)
Lemma decrypt_loop_fuel_irrelevant (fuel1 fuel2 : nat) ciphertext i plaintext :
  (length ciphertext - i ≤ fuel1)%nat → (length ciphertext - i ≤ fuel2)%nat →
  decrypt_loop fuel1 ciphertext i plaintext
  = decrypt_loop fuel2 ciphertext i plaintext.
Proof.
  revert fuel2 i plaintext.
  induction fuel1 as [|fuel1 IH]; intros fuel2 i p H1 H2.
  - destruct fuel2; simpl; by rewrite !decide_False by lia.
  - destruct fuel2 as [|fuel2]; simpl.
    + by rewrite !decide_False by lia.
    + destruct (decide (i < length ciphertext)%nat); [|done].
      destruct (decrypt_body ciphertext i p) as [[i' p']|e] eqn:Hb; simpl;
        [|done].
      apply decrypt_body_advances in Hb. apply IH; lia.
Qed.

(** What was decoded before does not influence what is decoded next. *)
Lemma decrypt_body_acc ciphertext i plaintext :
  decrypt_body ciphertext i plaintext
  = (r ← decrypt_body ciphertext i [] ; Ok (r.1, plaintext ++ r.2)).
Proof.
  unfold decrypt_body.
  destruct (substr ciphertext i GLYPH_SIZE) as [c1|]; simpl; [|done].
  destruct (isGlyph c1); simpl.
  - destruct (substr ciphertext (i + GLYPH_SIZE) _); simpl; [|done].
    by destruct (substr ciphertext _ _).
  - by destruct (char_at ciphertext _).
Qed.

Lemma decrypt_loop_acc fuel ciphertext i plaintext :
  decrypt_loop fuel ciphertext i plaintext
  = (r ← decrypt_loop fuel ciphertext i [] ; Ok (plaintext ++ r)).
Proof.
  revert i plaintext. induction fuel as [|fuel IH]; intros i p; simpl.
  - destruct (decide (i < length ciphertext)%nat); simpl;
      [done | by rewrite app_nil_r].
  - destruct (decide (i < length ciphertext)%nat); simpl;
      [|by rewrite app_nil_r].
    rewrite (decrypt_body_acc _ _ p).
    destruct (decrypt_body ciphertext i []) as [[i' p']|]; simpl; [|done].
    rewrite (IH _ (p ++ p')), (IH _ p').
    destruct (decrypt_loop fuel ciphertext (i' + 1) []); simpl; [|done].
    by rewrite app_assoc.
Qed.

(** Decoding starts afresh after a prefix that the loop has consumed. *)
Lemma decrypt_loop_skip (pre rest : std_string) fuel plaintext :
  (length rest ≤ fuel)%nat →
  decrypt_loop fuel (pre ++ rest) (length pre) plaintext
  = (r ← decrypt rest ; Ok (plaintext ++ r)).
Proof.
  intros Hfuel. rewrite <- (Nat.add_0_r (length pre)).
  rewrite decrypt_loop_shift, decrypt_loop_acc. unfold decrypt.
  by rewrite (decrypt_loop_fuel_irrelevant fuel (length rest)) by lia.
Qed.

Lemma decrypt_loop_S fuel ciphertext i plaintext :
  (i < length ciphertext)%nat →
  decrypt_loop (S fuel) ciphertext i plaintext
  = ('(i', plaintext') ← decrypt_body ciphertext i plaintext ;
     decrypt_loop fuel ciphertext (i' + 1) plaintext').
Proof. intros Hi. simpl. by rewrite decide_True. Qed.

(** One piece at the head of the ciphertext. *)
Lemma decrypt_piece (piece rest : std_string) (out : Z) :
  Spec.decodes_to piece out →
  decrypt (piece ++ rest) = (r ← decrypt rest ; Ok (out :: r)).
Proof.
  intros Hpiece. unfold decrypt at 1.
  destruct Hpiece as [i Hi | d Hd].
  - destruct (letter_decode _ Hi) as (Hrun & Hg0 & Hg1 & Hg2 & Hidx).
    assert (length (Spec.glyph_run (Spec.codeOf i)) = 9%nat) as Hlen.
    { rewrite Hrun, !length_app, Hg1, Hg2.
      by rewrite (isGlyph_length _ Hg0). }
    pose proof (decrypt_loop_skip (Spec.glyph_run (Spec.codeOf i)) rest
                  (8 + length rest) [chr "A" + i]) as Hskip.
    rewrite Hlen in Hskip.
    rewrite length_app, Hlen. change (9 + length rest)%nat
      with (S (8 + length rest)).
    rewrite decrypt_loop_S by (rewrite length_app; lia).
    rewrite Hrun at 1. rewrite <- !app_assoc.
    rewrite decrypt_body_run by done. rewrite Hidx.
    cbn [mbind result_bind app]. change (8 + 1)%nat with 9%nat.
    rewrite Hskip by lia. by destruct (decrypt rest).
  - change (length ([d] ++ rest)) with (S (length rest)).
    rewrite decrypt_loop_S by (simpl; lia).
    rewrite (decrypt_body_literal _ _ _ d); [|done|].
    + cbn [mbind result_bind app]. change (0 + 1)%nat with (length [d]).
      change (d :: rest) with ([d] ++ rest).
      rewrite decrypt_loop_skip by lia. by destruct (decrypt rest).
    + unfold Spec.first_glyph_at.
      destruct (isGlyph _) eqn:Hg; [|done].
      apply isGlyph_head in Hg. simpl in Hg.
      unfold Spec.glyph_lead in Hd. congruence.
Qed.

(** A ciphertext made of pieces is decoded piece by piece. *)
Lemma decrypt_pieces (pieces : list std_string) (outs rest : std_string) :
  Forall2 Spec.decodes_to pieces outs →
  decrypt (mjoin pieces ++ rest) = (r ← decrypt rest ; Ok (outs ++ r)).
Proof.
  induction 1 as [|piece out pieces outs Hpiece _ IH]; simpl.
  - by destruct (decrypt rest).
  - rewrite <- app_assoc, (decrypt_piece _ _ _ Hpiece), IH.
    by destruct (decrypt rest).
Qed.

End DecoderChunks.

(** ** The static encoder of Delta-K, continued *)

Section StaticMore.

Import DeltaK.

Lemma bind_join_fmap {A B} (f : A → list B) (l : list A) :
  l ≫= f = mjoin (f <$> l).
Proof.
  induction l as [|x l IH]; [done|].
  by rewrite bind_cons, fmap_cons, IH.
Qed.

Lemma toupper_not_alpha (c : Z) : isalpha c = false → toupper c = c.
Proof.
  unfold isalpha, toupper. intros H.
  destruct ((chr "a" <=? c) && (c <=? chr "z")); [|done].
  by rewrite orb_true_r in H.
Qed.

Lemma toupper_alpha (c : Z) :
  isalpha c = true → toupper c = chr "A" + abcPosition c.
Proof. intros _. unfold abcPosition. lia. Qed.

Lemma static_chunk_decodes (c : Z) :
  c ≠ Spec.glyph_lead →
  Spec.decodes_to (Spec.static_chunk c) (Spec.decoded_char c).
Proof.
  intros Hc. unfold Spec.static_chunk, Spec.decoded_char.
  destruct (isalpha c) eqn:Ha.
  - destruct (Z.eqb_spec c (chr " ")) as [->|_]; [done|].
    rewrite (toupper_alpha _ Ha).
    by apply Spec.decodes_letter, isalpha_abcPosition.
  - destruct (Z.eqb_spec c (chr " ")) as [->|_].
    + by apply Spec.decodes_literal.
    + rewrite (toupper_not_alpha _ Ha). by apply Spec.decodes_literal.
Qed.

Lemma length_static_chunk (c : Z) :
  length (Spec.static_chunk c) = if isalpha c then 9%nat else 1%nat.
Proof.
  unfold Spec.static_chunk. destruct (isalpha c) eqn:Ha.
  - pose proof (isalpha_abcPosition _ Ha) as Hi.
    revert Hi. generalize (abcPosition c). intros i Hi.
    range_cases i; reflexivity.
  - by destruct (c =? chr " ").
Qed.

End StaticMore.

(** X1.  The static encoder of Delta-K returns for every plaintext, and it
    encodes a concatenation as the concatenation of the encodings. *)
Theorem encrypt_concat (a b : std_string) :
  ∃ ca cb,
    DeltaK.encrypt a = Ok ca ∧ DeltaK.encrypt b = Ok cb
    ∧ DeltaK.encrypt (a ++ b) = Ok (ca ++ cb).
Proof.
  exists (a ≫= Spec.static_chunk), (b ≫= Spec.static_chunk).
  rewrite !encrypt_chunks. by rewrite bind_app.
Qed.

(** X2.  The static ciphertext has 9 bytes for each letter of the plaintext
    and one byte for each other character. *)
Theorem encrypt_length (plaintext ciphertext : std_string) :
  DeltaK.encrypt plaintext = Ok ciphertext →
  length ciphertext
  = (length plaintext + 8 * Spec.alpha_count plaintext)%nat.
Proof.
  rewrite encrypt_chunks. intros [= <-]. unfold Spec.alpha_count.
  induction plaintext as [|c plaintext IH]; [done|].
  rewrite bind_cons, length_app, IH, length_static_chunk.
  destruct (isalpha c) eqn:Ha.
  - rewrite filter_cons_True by done. simpl. lia.
  - rewrite filter_cons_False by (by rewrite Ha). simpl. lia.
Qed.

Lemma encrypt_length_witness :
  length (lit "▲◆◆▼▲▲!")
  = (length (lit "Hi!") + 8 * Spec.alpha_count (lit "Hi!"))%nat.
Proof. apply (encrypt_length (lit "Hi!") (lit "▲◆◆▼▲▲!")). reflexivity. Defined.

(** X3.  Round trip through the static cipher of Delta-K.  For every
    plaintext that holds no byte 0xE2 (the lead byte of the glyphs), the
    decoder turns the ciphertext, also when more ciphertext [rest] follows,
    back into the plaintext with its letters in upper case and each space as
    '/'; every other character comes back unchanged. *)
Theorem decrypt_encrypt (plaintext rest : std_string) :
  Spec.glyph_lead ∉ plaintext →
  (ciphertext ← DeltaK.encrypt plaintext ; DeltaK.decrypt (ciphertext ++ rest))
  = (r ← DeltaK.decrypt rest ; Ok ((Spec.decoded_char <$> plaintext) ++ r)).
Proof.
  intros Hlead. rewrite encrypt_chunks. cbn [mbind result_bind].
  rewrite bind_join_fmap. apply decrypt_pieces.
  apply Forall2_fmap, Forall_Forall2_diag, Forall_forall.
  intros c Hc. apply static_chunk_decodes. by intros ->.
Qed.

Lemma decrypt_encrypt_witness :
  (ciphertext ← DeltaK.encrypt (lit "Hi, you!") ;
   DeltaK.decrypt (ciphertext ++ []))
  = (r ← DeltaK.decrypt [] ;
     Ok ((Spec.decoded_char <$> lit "Hi, you!") ++ r)).
Proof.
  apply (decrypt_encrypt (lit "Hi, you!") []).
  apply (bool_decide_unpack _). vm_compute. exact I.
Defined.

(** X4.  The decoder copies a ciphertext that holds no byte 0xE2: without
    that byte no glyph can start, so every byte is a literal. *)
Theorem decrypt_without_glyph (ciphertext : std_string) :
  Spec.glyph_lead ∉ ciphertext → DeltaK.decrypt ciphertext = Ok ciphertext.
Proof.
  intros Hlead.
  pose proof (decrypt_pieces ((λ d, [d]) <$> ciphertext) ciphertext []) as H.
  rewrite app_nil_r in H. rewrite <- bind_join_fmap in H.
  assert (ciphertext ≫= (λ d, [d]) = ciphertext) as Hid
    by (clear; induction ciphertext as [|d l IH];
        [done | by rewrite bind_cons, IH]).
  rewrite Hid in H. rewrite H.
  - simpl. by rewrite app_nil_r.
  - apply Forall2_fmap_l, Forall_Forall2_diag, Forall_forall.
    intros d Hd. apply Spec.decodes_literal. by intros ->.
Qed.

Lemma decrypt_without_glyph_witness :
  DeltaK.decrypt (lit "a1/b c?") = Ok (lit "a1/b c?").
Proof.
  apply (decrypt_without_glyph (lit "a1/b c?")).
  apply (bool_decide_unpack _). vm_compute. exact I.
Defined.

(** X5.  The static encoder does not tell a space from a '/': both are
    written as '/', whatever stands around them. *)
Theorem encrypt_space_slash (pre post : std_string) :
  DeltaK.encrypt (pre ++ chr " " :: post)
  = DeltaK.encrypt (pre ++ chr "/" :: post).
Proof. rewrite !encrypt_chunks. by rewrite !bind_app, !bind_cons. Qed.

(** ** Glyphs and the search in the code table *)

Section Tables.

Import DeltaK.

Lemma abcSearch_from_spec (rows : list (list Z)) (i0 a b c : Z) :
  Forall (λ row, length row = 3%nat) rows →
  (([a; b; c] ∉ rows) ∧ abcSearch_from rows i0 a b c = -1)
  ∨ (∃ n : nat,
       rows !! n = Some [a; b; c] ∧ ([a; b; c] ∉ take n rows)
       ∧ abcSearch_from rows i0 a b c = i0 + Z.of_nat n).
Proof.
  intros Hrows. revert i0.
  induction Hrows as [|row rows Hrow _ IH]; intros i0; simpl.
  - left. split; [apply not_elem_of_nil | done].
  - assert ((row !! 0%nat = Some a ∧ row !! 1%nat = Some b
             ∧ row !! 2%nat = Some c) ↔ row = [a; b; c]) as Hmatch.
    { destruct row as [|x [|y [|z [|? ?]]]]; try discriminate Hrow.
      simpl. split; [intros ([= ->] & [= ->] & [= ->]) | intros [= -> -> ->]];
        done. }
    case_bool_decide as Hm.
    + apply Hmatch in Hm as ->. right. exists 0%nat.
      split; [done|]. split; [apply not_elem_of_nil | simpl; lia].
    + rewrite Hmatch in Hm.
      destruct (IH (i0 + 1)) as [[Hnot Hres] | (n & Hn & Hbefore & Hres)].
      * left. split; [|done]. rewrite not_elem_of_cons. split; congruence.
      * right. exists (S n). split; [done|]. split.
        -- simpl. rewrite not_elem_of_cons. split; congruence.
        -- rewrite Hres. lia.
Qed.

Lemma TRIT_ALPHABET_rows : Forall (λ row, length row = 3%nat) TRIT_ALPHABET.
Proof. repeat constructor. Qed.

Lemma abcSearch_range (a b c : Z) : -1 ≤ abcSearch a b c < 26.
Proof.
  destruct (abcSearch_from_spec TRIT_ALPHABET 0 a b c TRIT_ALPHABET_rows)
    as [[_ Hres] | (n & Hn & _ & Hres)]; unfold abcSearch; rewrite Hres.
  - lia.
  - apply lookup_lt_Some in Hn. simpl in Hn. lia.
Qed.

End Tables.

(** X6.  [abcSearch] is a search for the first row equal to the triple: it
    returns the index of the first row of [TRIT_ALPHABET] that holds
    [a, b, c], and the sentinel -1 exactly when no row holds it. *)
Theorem abcSearch_spec (a b c : Z) :
  (([a; b; c] ∉ DeltaK.TRIT_ALPHABET) ∧ DeltaK.abcSearch a b c = -1)
  ∨ (∃ n : nat,
       DeltaK.TRIT_ALPHABET !! n = Some [a; b; c]
       ∧ ([a; b; c] ∉ take n DeltaK.TRIT_ALPHABET)
       ∧ DeltaK.abcSearch a b c = Z.of_nat n).
Proof.
  destruct (abcSearch_from_spec DeltaK.TRIT_ALPHABET 0 a b c TRIT_ALPHABET_rows)
    as [? | (n & ? & ? & ?)]; [by left | right; by exists n].
Qed.

(** X7.  The three glyphs and the trits 0, 1, 2 are in bijection:
    [glyphVal] is the inverse of the lookup in [GLYPHS], [isGlyph] holds
    exactly for the three glyphs, and [glyphVal] is -1 exactly where
    [isGlyph] fails. *)
Theorem glyph_bijection (g : std_string) (t : Z) :
  (index DeltaK.GLYPHS t = Ok g ↔ DeltaK.isGlyph g = true ∧ DeltaK.glyphVal g = t)
  ∧ (DeltaK.isGlyph g = true ↔ g ∈ DeltaK.GLYPHS)
  ∧ (DeltaK.isGlyph g = false ↔ DeltaK.glyphVal g = -1).
Proof.
  assert (DeltaK.isGlyph g = true ↔ g ∈ DeltaK.GLYPHS) as Hin.
  { unfold DeltaK.isGlyph, DeltaK.GLYPHS.
    rewrite !orb_true_iff, !bool_decide_eq_true, !elem_of_cons, elem_of_nil.
    simpl. split; [intros [[[= <-] | [= <-]] | [= <-]] | intros [-> | [-> | [-> | []]]]];
      auto. }
  split; [|split; [done|]].
  - split.
    + intros Hidx. unfold index in Hidx.
      destruct (Z.ltb_spec t 0); [done|].
      destruct (DeltaK.GLYPHS !! Z.to_nat t) as [g'|] eqn:Hg; [|done].
      injection Hidx as ->.
      pose proof (lookup_lt_Some _ _ _ Hg) as Hlt. simpl in Hlt.
      assert (t = 0 ∨ t = 1 ∨ t = 2) as [-> | [-> | ->]] by lia;
        injection Hg as <-; by vm_compute.
    + intros [Hg <-]. apply Hin in Hg.
      unfold DeltaK.GLYPHS in Hg. rewrite !elem_of_cons, elem_of_nil in Hg.
      destruct Hg as [-> | [-> | [-> | []]]]; by vm_compute.
  - destruct (DeltaK.isGlyph g) eqn:Hg.
    + apply proj1 in Hin. specialize (Hin eq_refl).
      unfold DeltaK.GLYPHS in Hin. rewrite !elem_of_cons, elem_of_nil in Hin.
      split; [done|].
      destruct Hin as [-> | [-> | [-> | []]]]; by vm_compute.
    + split; [|done]. intros _. unfold DeltaK.isGlyph in Hg.
      rewrite !orb_false_iff in Hg. destruct Hg as [[H0 H1] H2].
      unfold DeltaK.glyphVal. by rewrite H0, H1, H2.
Qed.

(** ** What the decoder returns *)

Section DecoderOutcome.

Import DeltaK.

Lemma decrypt_body_Ok ciphertext i plaintext i' plaintext' :
  (i < length ciphertext)%nat →
  decrypt_body ciphertext i plaintext = Ok (i', plaintext') →
  (i ≤ i')%nat
  ∧ ∃ b, plaintext' = plaintext ++ [b] ∧ Spec.decoded_byte ciphertext b.
Proof.
  intros Hi Hb. split; [by eapply decrypt_body_advances|].
  unfold decrypt_body in Hb.
  apply bind_Ok in Hb as (c1 & _ & Hb).
  destruct (isGlyph c1); simpl in Hb.
  - apply bind_Ok in Hb as (c2 & _ & Hb). apply bind_Ok in Hb as (c3 & _ & Hb).
    injection Hb as _ <-. eexists. split; [done|]. right.
    pose proof (abcSearch_range (glyphVal c1) (glyphVal c2) (glyphVal c3)).
    unfold static_cast_char.
    change (chr "A") with 65. change (chr "@") with 64.
    change (chr "Z") with 90. rewrite Z.mod_small; lia.
  - destruct (lookup_lt_is_Some_2 ciphertext i Hi) as [c Hc].
    rewrite (char_at_lookup _ _ _ Hc) in Hb. simpl in Hb.
    injection Hb as _ <-. exists c. split; [done|]. left.
    by eapply list_elem_of_lookup_2.
Qed.

Lemma decrypt_loop_outcome fuel ciphertext i plaintext :
  (length ciphertext - i ≤ fuel)%nat →
  Forall (Spec.decoded_byte ciphertext) plaintext →
  decrypt_loop fuel ciphertext i plaintext = Err out_of_range
  ∨ ∃ out,
      decrypt_loop fuel ciphertext i plaintext = Ok out
      ∧ (length out ≤ length plaintext + (length ciphertext - i))%nat
      ∧ Forall (Spec.decoded_byte ciphertext) out.
Proof.
  revert i plaintext.
  induction fuel as [|fuel IH]; intros i p Hfuel Hp; simpl.
  - rewrite decide_False by lia. right. exists p. split; [done|].
    split; [lia | done].
  - destruct (decide (i < length ciphertext)%nat) as [Hi|Hi].
    + destruct (decrypt_body ciphertext i p) as [[i' p']|e] eqn:Hb; simpl.
      * apply decrypt_body_Ok in Hb as [Hadv (b & -> & Hbyte)]; [|done].
        destruct (IH (i' + 1)%nat (p ++ [b])) as [Herr | (out & Hout & Hlen & Hall)].
        -- lia.
        -- apply Forall_app. split; [done | by constructor].
        -- by left.
        -- right. exists out. split; [done|]. split; [|done].
           rewrite length_app in Hlen. simpl in Hlen. lia.
      * left. apply decrypt_body_Err in Hb; [by subst | done].
    + right. exists p. split; [done|]. split; [lia | done].
Qed.

End DecoderOutcome.

(** X8.  [decrypt] either throws [std::out_of_range] or returns a string
    that is not longer than the ciphertext and whose bytes are bytes of the
    ciphertext or characters from '@' to 'Z'; it has no other outcome. *)
Theorem decrypt_outcome (ciphertext : std_string) :
  DeltaK.decrypt ciphertext = Err out_of_range
  ∨ ∃ plaintext,
      DeltaK.decrypt ciphertext = Ok plaintext
      ∧ (length plaintext ≤ length ciphertext)%nat
      ∧ Forall (Spec.decoded_byte ciphertext) plaintext.
Proof.
  destruct (decrypt_loop_outcome (length ciphertext) ciphertext 0 [])
    as [Herr | (out & Hout & Hlen & Hall)]; [lia | constructor | by left |].
  right. exists out. split; [done|]. split; [simpl in Hlen; lia | done].
Qed.

(** ** The keyed-additive encoder, continued *)

Section AdditiveMore.

Import DeltaK.

(** Two loop bodies that agree on the states an invariant allows give the
    same loop. *)
Lemma for_each_ext_inv {A S} (I : S → Prop) (body1 body2 : S → A → result S)
  (xs : list A) (s : S) :
  I s →
  (∀ s x, I s → body1 s x = body2 s x) →
  (∀ s x s', I s → body2 s x = Ok s' → I s') →
  for_each xs body1 s = for_each xs body2 s.
Proof.
  intros Hs Heq Hinv. revert s Hs.
  induction xs as [|x xs IH]; intros s Hs; simpl; [done|].
  rewrite (Heq _ _ Hs).
  destruct (body2 s x) as [s'|] eqn:Hb; simpl; [|done].
  apply IH. by eapply Hinv.
Qed.

Lemma for_each_fmap {A B S} (f : A → B) (body : S → B → result S)
  (xs : list A) (s : S) :
  for_each (f <$> xs) body s = for_each xs (λ s x, body s (f x)) s.
Proof.
  revert s. induction xs as [|x xs IH]; intros s; simpl; [done|].
  destruct (body s (f x)); simpl; [apply IH | done].
Qed.

(** An iteration uses the key through [Spec.fetch] only. *)
Lemma encrypt_key_char_fetch (key : std_string) ciphertext keyIndex c :
  encrypt_key_char key (ciphertext, keyIndex) c
  = if isalpha c then
      currentKeyChar ← Spec.fetch key keyIndex ;
      ciphertext ← for_each columns
        (λ ciphertext j,
           g ← (p ← trit (abcPosition c) j ;
                q ← trit (abcPosition currentKeyChar) j ;
                index GLYPHS (Z.rem (p + q) 3)) ;
           Ok (ciphertext ++ g))
        ciphertext ;
      Ok (ciphertext, size_t_wrap (keyIndex + 1))
    else if c =? chr " " then Ok (ciphertext ++ [chr "/"], keyIndex)
    else Ok (ciphertext ++ [c], keyIndex).
Proof.
  unfold encrypt_key_char, Spec.fetch. destruct (isalpha c); [|done].
  by destruct (urem keyIndex _).
Qed.

Lemma encrypt_key_char_index (key : std_string) st c st' :
  0 ≤ st.2 → encrypt_key_char key st c = Ok st' → 0 ≤ st'.2.
Proof.
  destruct st as [acc ki]. cbn [snd]. intros Hki.
  rewrite encrypt_key_char_fetch.
  destruct (isalpha c).
  - intros (kc & _ & H)%bind_Ok. apply bind_Ok in H as (acc' & _ & [= <-]).
    cbn [snd]. unfold size_t_wrap, size_t_max. apply Z.mod_pos_bound. lia.
  - destruct (c =? chr " "); by intros [= <-].
Qed.

(** The key repeated [n] times. *)
Lemma length_repeat_key (key : std_string) (n : nat) :
  length (mjoin (replicate n key)) = (n * length key)%nat.
Proof.
  induction n as [|n IH]; [done|].
  change (mjoin (replicate (S n) key)) with (key ++ mjoin (replicate n key)).
  rewrite length_app, IH. lia.
Qed.

Lemma lookup_repeat_key (key : std_string) (n j : nat) :
  (j < n * length key)%nat →
  mjoin (replicate n key) !! j = key !! (j `mod` length key)%nat.
Proof.
  revert j. induction n as [|n IH]; intros j Hj; [lia|].
  change (mjoin (replicate (S n) key)) with (key ++ mjoin (replicate n key)).
  destruct (decide (j < length key)%nat) as [Hlt|Hge].
  - by rewrite lookup_app_l, Nat.mod_small.
  - rewrite lookup_app_r, IH by lia. f_equal.
    replace j with (j - length key + 1 * length key)%nat at 2 by lia.
    by rewrite Nat.Div0.mod_add.
Qed.

Lemma fetch_repeat_key (key : std_string) (n : nat) (keyIndex : Z) :
  0 ≤ keyIndex →
  Spec.fetch (mjoin (replicate (S n) key)) keyIndex = Spec.fetch key keyIndex.
Proof.
  intros Hk. unfold Spec.fetch, urem. rewrite length_repeat_key.
  destruct (decide (length key = 0%nat)) as [Hz|Hnz].
  - rewrite Hz, Nat.mul_0_r. done.
  - rewrite !(proj2 (Z.eqb_neq _ _)) by lia. cbn [mbind result_bind].
    set (m := Z.of_nat (S n * length key)). set (l := Z.of_nat (length key)).
    assert (0 < l ∧ 0 < m) as [Hl Hm] by lia.
    pose proof (Z.mod_pos_bound keyIndex m Hm) as Hr.
    pose proof (Z.mod_pos_bound keyIndex l Hl) as Hr'.
    assert (keyIndex `mod` l = (keyIndex `mod` m) `mod` l) as Hmod.
    { symmetry. apply Z.mod_mod_divide. exists (Z.of_nat (S n)). lia. }
    unfold char_at, index. rewrite length_repeat_key.
    rewrite !(proj2 (Z.eqb_neq _ _)), !(proj2 (Z.ltb_ge _ _)) by lia.
    rewrite lookup_repeat_key by lia.
    replace (Z.to_nat (keyIndex `mod` m) `mod` length key)%nat
      with (Z.to_nat (keyIndex `mod` l)); [done|].
    rewrite Hmod. subst l.
    rewrite Z2Nat.inj_mod, Nat2Z.id by lia. done.
Qed.

End AdditiveMore.

(** X9.  The key is cycled: repeating the key any number of times gives the
    same outcome of the keyed-additive encoder, for every plaintext and every
    key. *)
Theorem encrypt_key_repeated_key (plaintext key : std_string) (n : nat) :
  DeltaK.encrypt_key plaintext (mjoin (replicate (S n) key))
  = DeltaK.encrypt_key plaintext key.
Proof.
  unfold DeltaK.encrypt_key. f_equal.
  apply (for_each_ext_inv (λ st, 0 ≤ st.2)); [done | |].
  - intros [acc ki] c Hki. rewrite !encrypt_key_char_fetch.
    by rewrite fetch_repeat_key.
  - intros st c st' Hst Hbody. by eapply encrypt_key_char_index.
Qed.

(** ** Case folding *)

Section CaseFolding.

Lemma isalpha_toupper (c : Z) : isalpha (toupper c) = isalpha c.
Proof.
  unfold isalpha, toupper.
  change (chr "A") with 65; change (chr "Z") with 90.
  change (chr "a") with 97; change (chr "z") with 122.
  destruct ((97 <=? c) && (c <=? 122)) eqn:E; lia.
Qed.

Lemma toupper_toupper (c : Z) : toupper (toupper c) = toupper c.
Proof.
  unfold toupper.
  change (chr "a") with 97; change (chr "z") with 122.
  destruct ((97 <=? c) && (c <=? 122)) eqn:E; [|by rewrite E].
  destruct ((97 <=? c - 32) && (c - 32 <=? 122)) eqn:E'; lia.
Qed.

Lemma abcPosition_toupper (c : Z) :
  DeltaK.abcPosition (toupper c) = DeltaK.abcPosition c.
Proof. unfold DeltaK.abcPosition. by rewrite toupper_toupper. Qed.

Lemma toupper_space (c : Z) : (toupper c =? chr " ") = (c =? chr " ").
Proof.
  unfold toupper.
  change (chr "a") with 97; change (chr "z") with 122; change (chr " ") with 32.
  destruct ((97 <=? c) && (c <=? 122)) eqn:E; lia.
Qed.

Lemma static_chunk_toupper (c : Z) :
  Spec.static_chunk (toupper c) = Spec.static_chunk c.
Proof.
  unfold Spec.static_chunk.
  rewrite isalpha_toupper, abcPosition_toupper, toupper_space.
  destruct (isalpha c) eqn:Ha; [done|]. by rewrite (toupper_not_alpha _ Ha).
Qed.

Lemma fetch_toupper (key : std_string) (keyIndex : Z) :
  Spec.fetch (toupper <$> key) keyIndex
  = (c ← Spec.fetch key keyIndex ; Ok (toupper c)).
Proof.
  unfold Spec.fetch, urem. rewrite length_fmap.
  destruct (Z.of_nat (length key) =? 0); [done|]. cbn [mbind result_bind].
  unfold char_at, index. rewrite length_fmap, list_lookup_fmap.
  destruct (_ =? Z.of_nat (length key)); [done|].
  destruct (_ <? 0); [done|].
  by destruct (key !! _).
Qed.

Lemma encrypt_key_char_toupper (key : std_string) ciphertext keyIndex c :
  DeltaK.encrypt_key_char (toupper <$> key) (ciphertext, keyIndex) (toupper c)
  = DeltaK.encrypt_key_char key (ciphertext, keyIndex) c.
Proof.
  rewrite !encrypt_key_char_fetch.
  rewrite isalpha_toupper, abcPosition_toupper, toupper_space, fetch_toupper.
  destruct (isalpha c) eqn:Ha.
  - destruct (Spec.fetch key keyIndex) as [kc|]; [|done].
    cbn [mbind result_bind]. by rewrite abcPosition_toupper.
  - by rewrite (toupper_not_alpha _ Ha).
Qed.

Lemma cipher_encrypt_char_toupper (alphabet : list std_string) ciphertext c :
  CipherEncoder.encrypt_char alphabet ciphertext (toupper c)
  = CipherEncoder.encrypt_char alphabet ciphertext c.
Proof.
  unfold CipherEncoder.encrypt_char, CipherEncoder.abcPosition.
  rewrite isalpha_toupper, toupper_toupper.
  destruct (isalpha c) eqn:Ha; [done|]. by rewrite (toupper_not_alpha _ Ha).
Qed.

Lemma fmap_toupper_toupper (s : std_string) :
  toupper <$> (toupper <$> s) = toupper <$> s.
Proof.
  rewrite <- list_fmap_compose. apply list_fmap_ext.
  intros _ c _. apply toupper_toupper.
Qed.

Lemma forallb_isalpha_toupper (s : std_string) :
  forallb isalpha (toupper <$> s) = forallb isalpha s.
Proof.
  induction s as [|c s IH]; [done|].
  rewrite fmap_cons. simpl. by rewrite isalpha_toupper, IH.
Qed.

End CaseFolding.

(** X10.  Case folding.  None of the encoders, validators and key builders
    tells a lower-case letter from its upper-case form, in the plaintext or
    in the key. *)
Theorem encoders_fold_case (plaintext key : std_string)
  (alphabet : list std_string) :
  DeltaK.encrypt (toupper <$> plaintext) = DeltaK.encrypt plaintext
  ∧ DeltaK.encrypt_key (toupper <$> plaintext) (toupper <$> key)
    = DeltaK.encrypt_key plaintext key
  ∧ DeltaK.keyValidation (toupper <$> key) = DeltaK.keyValidation key
  ∧ CipherEncoder.encrypt (toupper <$> plaintext) alphabet
    = CipherEncoder.encrypt plaintext alphabet
  ∧ CipherEncoder.keyValidation (toupper <$> key)
    = CipherEncoder.keyValidation key
  ∧ CipherEncoder.alphabetWithKey (toupper <$> key)
    = CipherEncoder.alphabetWithKey key.
Proof.
  repeat split.
  - rewrite !encrypt_chunks. f_equal.
    induction plaintext as [|c plaintext IH]; [done|].
    by rewrite fmap_cons, !bind_cons, static_chunk_toupper, IH.
  - unfold DeltaK.encrypt_key. rewrite for_each_fmap. f_equal.
    apply (for_each_ext_inv (λ _, True)); [done | | done].
    intros [acc ki] c _. apply encrypt_key_char_toupper.
  - unfold DeltaK.keyValidation.
    destruct key as [|c key]; [done|]. rewrite fmap_cons.
    rewrite !bool_decide_eq_false_2 by done.
    revert c. induction key as [|d key IH]; intros c; simpl.
    + by rewrite isalpha_toupper.
    + rewrite isalpha_toupper. destruct (isalpha c); [apply IH | done].
  - unfold CipherEncoder.encrypt. rewrite for_each_fmap.
    apply (for_each_ext_inv (λ _, True)); [done | | done].
    intros acc c _. apply cipher_encrypt_char_toupper.
  - unfold CipherEncoder.keyValidation.
    rewrite !keyValidation_loop_spec, forallb_isalpha_toupper.
    by rewrite fmap_toupper_toupper.
  - unfold CipherEncoder.alphabetWithKey. by rewrite fmap_toupper_toupper.
Qed.

(** ** The key in the keyed-additive encoder *)

Section AdditiveKey.

Import DeltaK.

Lemma GLYPHS_length (t : Z) (g : std_string) :
  index GLYPHS t = Ok g → length g = 3%nat.
Proof.
  unfold index. destruct (t <? 0); [done|].
  destruct (GLYPHS !! Z.to_nat t) as [g'|] eqn:Hg; [|done].
  intros [= <-]. apply list_elem_of_lookup_2 in Hg.
  unfold GLYPHS in Hg. rewrite !elem_of_cons, elem_of_nil in Hg.
  by destruct Hg as [-> | [-> | [-> | []]]].
Qed.

Lemma for_each_emit_length {A} (f : A → result std_string) (xs : list A)
  (n : nat) (out : std_string) :
  (∀ x g, f x = Ok g → length g = n) →
  for_each xs (λ acc x, g ← f x ; Ok (acc ++ g)) [] = Ok out →
  length out = (length xs * n)%nat.
Proof.
  intros Hf. revert out. induction xs as [|x xs IH]; intros out Hrun.
  - by injection Hrun as <-.
  - cbn [for_each] in Hrun. apply bind_Ok in Hrun as (acc & Hx & Hrun).
    apply bind_Ok in Hx as (g & Hg & [= <-]).
    rewrite for_each_emit in Hrun. apply bind_Ok in Hrun as (r & Hr & [= <-]).
    rewrite !length_app, (Hf _ _ Hg), (IH _ Hr). simpl. lia.
Qed.

(** The loop only appends to the ciphertext, 9 bytes for a letter and one
    byte for another character. *)
Lemma encrypt_key_loop_appends (key plaintext ciphertext : std_string)
  (keyIndex : Z) (st : std_string * Z) :
  0 ≤ keyIndex →
  for_each plaintext (encrypt_key_char key) (ciphertext, keyIndex) = Ok st →
  ∃ out,
    st.1 = ciphertext ++ out
    ∧ length out = (length plaintext + 8 * Spec.alpha_count plaintext)%nat.
Proof.
  revert ciphertext keyIndex.
  induction plaintext as [|c plaintext IH]; intros acc ki Hki Hrun.
  - injection Hrun as <-. exists []. by rewrite app_nil_r.
  - cbn [for_each] in Hrun. apply bind_Ok in Hrun as ([acc' ki'] & Hc & Hrun).
    pose proof (encrypt_key_char_index key (acc, ki) c (acc', ki') Hki Hc)
      as Hki'.
    apply IH in Hrun as (out & -> & Hlen); [|done].
    rewrite encrypt_key_char_fetch in Hc. unfold Spec.alpha_count in *.
    destruct (isalpha c) eqn:Ha.
    + rewrite filter_cons_True by done.
      apply bind_Ok in Hc as (kc & _ & Hc).
      apply bind_Ok in Hc as (acc1 & Hg & [= <- _]).
      rewrite for_each_emit in Hg. apply bind_Ok in Hg as (g & Hg & [= <-]).
      assert (length g = 9%nat) as Hg9.
      { apply for_each_emit_length with (n := 3%nat) in Hg; [done|].
        intros j g' Hj. apply bind_Ok in Hj as (? & _ & Hj).
        apply bind_Ok in Hj as (? & _ & Hj). by eapply GLYPHS_length. }
      exists (g ++ out). rewrite <- app_assoc. split; [done|].
      rewrite length_app, Hlen, Hg9. simpl. lia.
    + rewrite filter_cons_False by (by rewrite Ha).
      exists (Spec.static_chunk c ++ out). split.
      * rewrite app_assoc. f_equal. unfold Spec.static_chunk. rewrite Ha.
        by destruct (c =? chr " "); injection Hc as <- _.
      * rewrite length_app, length_static_chunk, Ha, Hlen. simpl. lia.
Qed.

Lemma encrypt_key_loop_index (key plaintext ciphertext : std_string)
  (keyIndex : Z) (st : std_string * Z) :
  0 ≤ keyIndex →
  for_each plaintext (encrypt_key_char key) (ciphertext, keyIndex) = Ok st →
  0 ≤ st.2.
Proof.
  revert ciphertext keyIndex.
  induction plaintext as [|c plaintext IH]; intros acc ki Hki Hrun.
  - by injection Hrun as <-.
  - cbn [for_each] in Hrun. apply bind_Ok in Hrun as ([acc' ki'] & Hc & Hrun).
    eapply IH; [|done].
    exact (encrypt_key_char_index key (acc, ki) c (acc', ki') Hki Hc).
Qed.

(** Without letters the key is not read. *)
Lemma encrypt_key_loop_no_letters (key plaintext ciphertext : std_string)
  (keyIndex : Z) :
  Forall (λ c, isalpha c = false) plaintext →
  for_each plaintext (encrypt_key_char key) (ciphertext, keyIndex)
  = Ok (ciphertext ++ (plaintext ≫= Spec.static_chunk), keyIndex).
Proof.
  intros Hp. revert ciphertext.
  induction Hp as [|c plaintext Hc _ IH]; intros acc; cbn [for_each].
  - by rewrite app_nil_r.
  - rewrite (encrypt_key_char_other key acc keyIndex c 0 Hc).
    cbn [mbind result_bind]. rewrite IH, bind_cons, <- app_assoc.
    unfold Spec.additive_chunk, Spec.static_chunk.
    by rewrite is_letter_isalpha, Hc.
Qed.

(** The glyph run that the keyed-additive encoder writes for a letter is
    never the one of the static table, and it determines the letter once the
    key letter is known. *)
Lemma additive_code_differs (i k : Z) :
  0 ≤ i < 26 → 0 ≤ k < 26 →
  Spec.glyph_run
    (zip_with (λ p q, (p + q) mod 3) (Spec.codeOf i) (Spec.codeOf k))
  ≠ Spec.glyph_run (Spec.codeOf i).
Proof. intros Hi Hk. range_cases i; range_cases k; by vm_compute. Qed.

Lemma additive_code_inj (i j k : Z) :
  0 ≤ i < 26 → 0 ≤ j < 26 → 0 ≤ k < 26 →
  Spec.glyph_run
    (zip_with (λ p q, (p + q) mod 3) (Spec.codeOf i) (Spec.codeOf k))
  = Spec.glyph_run
      (zip_with (λ p q, (p + q) mod 3) (Spec.codeOf j) (Spec.codeOf k)) →
  i = j.
Proof.
  intros Hi Hj Hk.
  assert (Forall (λ k, Forall (λ i, Forall (λ j,
            Spec.glyph_run
              (zip_with (λ p q, (p + q) mod 3) (Spec.codeOf i) (Spec.codeOf k))
            = Spec.glyph_run
                (zip_with (λ p q, (p + q) mod 3) (Spec.codeOf j) (Spec.codeOf k))
            → i = j) (seqZ 0 26)) (seqZ 0 26)) (seqZ 0 26)) as Hall.
  { apply (bool_decide_unpack _). by vm_compute. }
  rewrite Forall_forall in Hall.
  specialize (Hall k ltac:(apply elem_of_seqZ; lia)).
  rewrite Forall_forall in Hall.
  specialize (Hall i ltac:(apply elem_of_seqZ; lia)).
  rewrite Forall_forall in Hall.
  exact (Hall j ltac:(apply elem_of_seqZ; lia)).
Qed.

Lemma additive_chunk_letter (key : std_string) (keyIndex c : Z) :
  keyValidation key = true → 0 ≤ keyIndex → isalpha c = true →
  ∃ k, 0 ≤ k < 26
       ∧ Spec.additive_chunk key (Z.to_nat keyIndex) c
         = Spec.glyph_run
             (zip_with (λ p q, (p + q) mod 3)
                (Spec.codeOf (abcPosition c)) (Spec.codeOf k)).
Proof.
  intros Hkey Hki Hc.
  destruct (key_cycle key Hkey keyIndex Hki) as (kc & Hlook & Ha & _).
  exists (abcPosition kc). split; [by apply isalpha_abcPosition|].
  unfold Spec.additive_chunk, Spec.additive_code.
  rewrite is_letter_isalpha, Hc, Hlook.
  cbn [default from_option id]. by rewrite !letter_index_abcPosition.
Qed.

Lemma encrypt_key_loop_differs (key plaintext ciphertext : std_string)
  (keyIndex : Z) (st : std_string * Z) :
  keyValidation key = true → 0 ≤ keyIndex →
  Exists (λ c, isalpha c = true) plaintext →
  for_each plaintext (encrypt_key_char key) (ciphertext, keyIndex) = Ok st →
  st.1 ≠ ciphertext ++ (plaintext ≫= Spec.static_chunk).
Proof.
  intros Hkey. revert ciphertext keyIndex.
  induction plaintext as [|c plaintext IH]; intros acc ki Hki Hex Hrun.
  - by apply Exists_nil in Hex.
  - cbn [for_each] in Hrun. rewrite bind_cons.
    destruct (isalpha c) eqn:Hc.
    + rewrite (encrypt_key_char_letter key Hkey) in Hrun by done.
      cbn [mbind result_bind] in Hrun.
      apply encrypt_key_loop_appends in Hrun as (out & -> & _);
        [|unfold size_t_wrap, size_t_max; apply Z.mod_pos_bound; lia].
      destruct (additive_chunk_letter key ki c Hkey Hki Hc) as (k & Hk & ->).
      pose proof (isalpha_abcPosition c Hc) as Hi.
      rewrite <- app_assoc. intros Heq%app_inv_head.
      apply app_inj_1 in Heq as [Heq _].
      * revert Heq. unfold Spec.static_chunk. rewrite Hc.
        by apply additive_code_differs.
      * rewrite length_static_chunk, Hc. clear Heq.
        revert Hi Hk. generalize (abcPosition c). intros i Hi Hk.
        range_cases i; range_cases k; reflexivity.
    + apply Exists_cons in Hex as [Hex|Hex]; [congruence|].
      rewrite (encrypt_key_char_other key acc ki c 0 Hc) in Hrun.
      cbn [mbind result_bind] in Hrun.
      apply IH in Hrun; [|done..]. rewrite app_assoc.
      unfold Spec.additive_chunk, Spec.static_chunk in *.
      by rewrite is_letter_isalpha, Hc in *.
Qed.

End AdditiveKey.

(** X11.  When the plaintext has no letter the keyed-additive encoder does
    not read the key: for every key, also an empty or a non-alphabetic one,
    it returns what the static encoder returns. *)
Theorem encrypt_key_no_letters (plaintext key : std_string) :
  Forall (λ c, isalpha c = false) plaintext →
  DeltaK.encrypt_key plaintext key = DeltaK.encrypt plaintext.
Proof.
  intros Hp. unfold DeltaK.encrypt_key.
  rewrite encrypt_key_loop_no_letters by done.
  by rewrite encrypt_chunks.
Qed.

Lemma encrypt_key_no_letters_witness :
  DeltaK.encrypt_key (lit "12 + 3?") (lit "") = DeltaK.encrypt (lit "12 + 3?").
Proof.
  apply (encrypt_key_no_letters (lit "12 + 3?") (lit "")).
  repeat constructor.
Defined.

(** X12.  With the empty key the keyed-additive encoder fails as soon as the
    plaintext holds a letter: the key index is reduced modulo
    [key.length()], which is zero. *)
Theorem encrypt_key_empty_key_fails (plaintext : std_string) :
  Exists (λ c, isalpha c = true) plaintext →
  DeltaK.encrypt_key plaintext [] = Err division_by_zero.
Proof.
  intros Hex. unfold DeltaK.encrypt_key.
  assert (∀ acc ki,
            for_each plaintext (DeltaK.encrypt_key_char []) (acc, ki)
            = Err division_by_zero) as ->; [|done].
  induction plaintext as [|c plaintext IH]; intros acc ki;
    [by apply Exists_nil in Hex|].
  cbn [for_each]. destruct (isalpha c) eqn:Hc.
  - unfold DeltaK.encrypt_key_char. by rewrite Hc.
  - apply Exists_cons in Hex as [Hex|Hex]; [congruence|].
    rewrite (encrypt_key_char_other [] acc ki c 0 Hc).
    cbn [mbind result_bind]. by apply IH.
Qed.

Lemma encrypt_key_empty_key_fails_witness :
  DeltaK.encrypt_key (lit "1 a") [] = Err division_by_zero.
Proof.
  apply (encrypt_key_empty_key_fails (lit "1 a")).
  apply Exists_cons_tl, Exists_cons_tl, Exists_cons_hd. reflexivity.
Defined.

(** X13.  With a non-empty alphabetic key the keyed-additive ciphertext of a
    plaintext that holds a letter is never the static ciphertext: no key
    letter has the triple 0,0,0, so every letter is written with other
    glyphs than the static ones. *)
Theorem encrypt_key_differs_from_static (plaintext key : std_string) :
  key ≠ [] → Forall (λ c, isalpha c = true) key →
  Exists (λ c, isalpha c = true) plaintext →
  DeltaK.encrypt_key plaintext key ≠ DeltaK.encrypt plaintext.
Proof.
  intros Hne Halpha Hex.
  assert (DeltaK.keyValidation key = true) as Hkey
    by by apply keyValidation_true.
  unfold DeltaK.encrypt_key. rewrite encrypt_chunks.
  destruct (for_each plaintext _ _) as [st|] eqn:Hrun; [|done].
  apply encrypt_key_loop_differs in Hrun; [|done | lia | done].
  cbn [mbind result_bind]. simpl in Hrun. congruence.
Qed.

Lemma encrypt_key_differs_from_static_witness :
  DeltaK.encrypt_key (lit "a1") (lit "Z") ≠ DeltaK.encrypt (lit "a1").
Proof.
  apply (encrypt_key_differs_from_static (lit "a1") (lit "Z")).
  - discriminate.
  - repeat constructor.
  - apply Exists_cons_hd. reflexivity.
Defined.

(** X14.  With a non-empty alphabetic key the keyed-additive encoding can be
    undone letter by letter: after the same prefix, two letters that are
    written with the same glyphs are the same letter up to case. *)
Theorem encrypt_key_letter_injective (pre key : std_string) (c1 c2 : Z) :
  key ≠ [] → Forall (λ c, isalpha c = true) key →
  isalpha c1 = true → isalpha c2 = true →
  DeltaK.encrypt_key (pre ++ [c1]) key = DeltaK.encrypt_key (pre ++ [c2]) key →
  toupper c1 = toupper c2.
Proof.
  intros Hne Halpha H1 H2.
  assert (DeltaK.keyValidation key = true) as Hkey
    by by apply keyValidation_true.
  unfold DeltaK.encrypt_key. rewrite !for_each_app.
  destruct (encrypt_key_loop_total key Hkey pre [] 0)
    as (acc & ki & Hpre); [lia|].
  pose proof (encrypt_key_loop_index _ _ _ _ _ (Z.le_refl 0) Hpre) as Hki.
  rewrite Hpre. cbn [mbind result_bind for_each snd] in *.
  rewrite !(encrypt_key_char_letter key Hkey) by done.
  cbn [mbind result_bind fst].
  destruct (key_cycle key Hkey ki Hki) as (kc & Hlook & Ha & _).
  unfold Spec.additive_chunk. rewrite !is_letter_isalpha, H1, H2, Hlook.
  cbn [default from_option id].
  intros [= Heq%app_inv_head]. unfold Spec.additive_code in Heq.
  rewrite !letter_index_abcPosition in Heq by done.
  apply additive_code_inj in Heq; [|by apply isalpha_abcPosition..].
  unfold DeltaK.abcPosition in Heq. lia.
Qed.

Lemma encrypt_key_letter_injective_witness : toupper (chr "a") = toupper (chr "A").
Proof.
  apply (encrypt_key_letter_injective (lit "x ") (lit "Key") (chr "a") (chr "A"));
    try reflexivity; [discriminate | repeat constructor].
Defined.

(** X15.  Whenever the keyed-additive encoder returns, its ciphertext has 9
    bytes for each letter of the plaintext and one byte for each other
    character, like the static ciphertext. *)
Theorem encrypt_key_length (plaintext key ciphertext : std_string) :
  DeltaK.encrypt_key plaintext key = Ok ciphertext →
  length ciphertext
  = (length plaintext + 8 * Spec.alpha_count plaintext)%nat.
Proof.
  unfold DeltaK.encrypt_key. intros (st & Hrun & [= <-])%bind_Ok.
  apply encrypt_key_loop_appends in Hrun as (out & -> & Hlen); [done | lia].
Qed.

Lemma encrypt_key_length_witness :
  length (lit "▲▲▲▲▼▼!")
  = (length (lit "AA!") + 8 * Spec.alpha_count (lit "AA!"))%nat.
Proof.
  apply (encrypt_key_length (lit "AA!") (lit "BC") (lit "▲▲▲▲▼▼!")).
  reflexivity.
Defined.

(** ** The keyword validator and the keyword alphabet, continued *)

Section KeywordMore.

Import CipherEncoder.

Lemma toupper_letter_inv (c : Z) :
  chr "A" ≤ toupper c ≤ chr "Z" → isalpha c = true.
Proof.
  unfold isalpha, toupper.
  change (chr "A") with 65; change (chr "Z") with 90.
  change (chr "a") with 97; change (chr "z") with 122.
  destruct ((97 <=? c) && (c <=? 122)) eqn:E; lia.
Qed.

Lemma not_alpha_slot (c : Z) :
  isalpha c = false → ¬ (0 ≤ toupper c - chr "A" < 26).
Proof.
  intros Ha Hslot. assert (isalpha c = true); [|congruence].
  apply toupper_letter_inv.
  change (chr "A") with 65 in *. change (chr "Z") with 90. lia.
Qed.

End KeywordMore.

(** X16.  The permutation-mode validator, which compares the size of a set
    with the size of the key, accepts exactly the keys made of letters no
    two of which are the same letter up to case. *)
Theorem keyValidation_spec (key : std_string) :
  CipherEncoder.keyValidation key = true
  ↔ Forall (λ c, isalpha c = true) key ∧ NoDup (toupper <$> key).
Proof. apply keyValidation_unique. Qed.

(** X17.  A key accepted by the permutation-mode validator has at most 26
    characters, and when it is not empty the additive-mode validator accepts
    it too. *)
Theorem keyValidation_accepted (key : std_string) :
  CipherEncoder.keyValidation key = true →
  (length key ≤ 26)%nat
  ∧ (key ≠ [] → DeltaK.keyValidation key = true).
Proof.
  intros [Halpha Hnodup]%keyValidation_unique. split.
  - rewrite <- (length_fmap toupper key).
    change 26%nat with (length Spec.plain_alphabet).
    apply submseteq_length, NoDup_submseteq; [done|].
    intros x (c & -> & Hc)%list_elem_of_fmap.
    rewrite Forall_forall in Halpha. by apply toupper_letter, Halpha.
  - intros Hne. by apply keyValidation_true.
Qed.

Lemma keyValidation_accepted_witness :
  (length (lit "Key") ≤ 26)%nat
  ∧ (lit "Key" ≠ [] → DeltaK.keyValidation (lit "Key") = true).
Proof. apply (keyValidation_accepted (lit "Key")). reflexivity. Defined.

(** X18.  The keyword alphabet is a permutation of A-Z exactly for the keys
    that the permutation-mode validator accepts; for every other key it
    holds a character that is no upper-case letter, or a letter twice. *)
Theorem alphabetWithKey_permutation_iff (key : std_string) :
  CipherEncoder.alphabetWithKey key ≡ₚ Spec.plain_alphabet
  ↔ CipherEncoder.keyValidation key = true.
Proof.
  split; [|apply alphabetWithKey_Permutation].
  intros Hperm. apply keyValidation_unique.
  assert (NoDup (CipherEncoder.alphabetWithKey key)) as Hnodup
    by (rewrite Hperm; apply plain_alphabet_NoDup).
  rewrite alphabetWithKey_ordering in Hperm, Hnodup.
  unfold Spec.keyed_ordering in *.
  split; [|by apply NoDup_app in Hnodup as [? _]].
  apply Forall_forall. intros c Hc.
  apply toupper_letter_inv, plain_alphabet_elem.
  rewrite <- Hperm. apply elem_of_app. left. by apply list_elem_of_fmap_2.
Qed.

(** ** The static table of cipher-encoder.cpp *)

Section CipherStatic.

Import CipherEncoder.

(** The static table holds, for each letter, the glyphs of its triple in
    [TRIT_ALPHABET]. *)
Lemma CIPHER_ALPHABET_row (i : Z) :
  0 ≤ i < 26 → index CIPHER_ALPHABET i = Ok (Spec.glyph_run (Spec.codeOf i)).
Proof. intros Hi. range_cases i; reflexivity. Qed.

Lemma CIPHER_ALPHABET_NoDup : NoDup CIPHER_ALPHABET.
Proof. apply (bool_decide_unpack _). by vm_compute. Qed.

(** Both programs define the same [abcPosition]. *)
Lemma abcPosition_agree (c : Z) : abcPosition c = DeltaK.abcPosition c.
Proof. reflexivity. Qed.

Lemma cipher_encrypt_char_chunk (ciphertext : std_string) (c : Z) :
  encrypt_char CIPHER_ALPHABET ciphertext c
  = Ok (ciphertext ++ Spec.cipher_chunk c).
Proof.
  unfold encrypt_char, Spec.cipher_chunk. rewrite abcPosition_agree.
  destruct (isalpha c) eqn:Ha; [|done].
  by rewrite (CIPHER_ALPHABET_row _ (isalpha_abcPosition _ Ha)).
Qed.

Lemma cipher_encrypt_loop_chunks (plaintext ciphertext : std_string) :
  for_each plaintext (encrypt_char CIPHER_ALPHABET) ciphertext
  = Ok (ciphertext ++ (plaintext ≫= Spec.cipher_chunk)).
Proof.
  revert ciphertext.
  induction plaintext as [|c plaintext IH]; intros acc; cbn [for_each].
  - by rewrite app_nil_r.
  - rewrite cipher_encrypt_char_chunk. cbn [mbind result_bind].
    by rewrite IH, bind_cons, app_assoc.
Qed.

Lemma cipher_encrypt_chunks (plaintext : std_string) :
  encrypt plaintext CIPHER_ALPHABET = Ok (plaintext ≫= Spec.cipher_chunk).
Proof. apply cipher_encrypt_loop_chunks. Qed.

Lemma static_chunk_cipher_chunk (c : Z) :
  Spec.static_chunk c = Spec.cipher_chunk (Spec.space_to_slash c).
Proof.
  unfold Spec.static_chunk, Spec.cipher_chunk, Spec.space_to_slash.
  destruct (Z.eqb_spec c (chr " ")) as [->|Hc]; [done|].
  by destruct (isalpha c).
Qed.

Lemma cipher_chunk_decodes (c : Z) :
  c ≠ Spec.glyph_lead → Spec.decodes_to (Spec.cipher_chunk c) (toupper c).
Proof.
  intros Hc. unfold Spec.cipher_chunk. rewrite abcPosition_agree.
  destruct (isalpha c) eqn:Ha.
  - rewrite (toupper_alpha _ Ha).
    by apply Spec.decodes_letter, isalpha_abcPosition.
  - rewrite (toupper_not_alpha _ Ha). by apply Spec.decodes_literal.
Qed.

(** Round trip from the static table of cipher-encoder.cpp through the
    decoder of Delta-K. *)
Lemma decrypt_cipher_chunks (plaintext rest : std_string) :
  Spec.glyph_lead ∉ plaintext →
  DeltaK.decrypt ((plaintext ≫= Spec.cipher_chunk) ++ rest)
  = (r ← DeltaK.decrypt rest ; Ok ((toupper <$> plaintext) ++ r)).
Proof.
  intros Hlead. rewrite bind_join_fmap. apply decrypt_pieces.
  apply Forall2_fmap, Forall_Forall2_diag, Forall_forall.
  intros c Hc. apply cipher_chunk_decodes. by intros ->.
Qed.

End CipherStatic.

(** X19.  The two programs share the static code: the static encoder of
    Delta-K returns what the encoder of cipher-encoder.cpp returns, with its
    default table, for the plaintext in which each space is replaced by
    '/'. *)
Theorem encrypt_static_agree (plaintext : std_string) :
  DeltaK.encrypt plaintext
  = CipherEncoder.encrypt (Spec.space_to_slash <$> plaintext)
      CipherEncoder.CIPHER_ALPHABET.
Proof.
  rewrite encrypt_chunks, cipher_encrypt_chunks. f_equal.
  induction plaintext as [|c plaintext IH]; [done|].
  by rewrite fmap_cons, !bind_cons, static_chunk_cipher_chunk, IH.
Qed.

(** X20.  Round trip from cipher-encoder.cpp to the decoder of Delta-K: for
    every plaintext without the byte 0xE2, decoding the static ciphertext of
    cipher-encoder.cpp gives the plaintext back with its letters in upper
    case; spaces, which this encoder keeps, come back as spaces. *)
Theorem decrypt_cipher_encrypt (plaintext rest : std_string) :
  Spec.glyph_lead ∉ plaintext →
  (ciphertext ← CipherEncoder.encrypt plaintext CipherEncoder.CIPHER_ALPHABET ;
   DeltaK.decrypt (ciphertext ++ rest))
  = (r ← DeltaK.decrypt rest ; Ok ((toupper <$> plaintext) ++ r)).
Proof.
  intros Hlead. rewrite cipher_encrypt_chunks. cbn [mbind result_bind].
  by apply decrypt_cipher_chunks.
Qed.

Lemma decrypt_cipher_encrypt_witness :
  (ciphertext ← CipherEncoder.encrypt (lit "Hi you") CipherEncoder.CIPHER_ALPHABET ;
   DeltaK.decrypt (ciphertext ++ []))
  = (r ← DeltaK.decrypt [] ; Ok ((toupper <$> lit "Hi you") ++ r)).
Proof.
  apply (decrypt_cipher_encrypt (lit "Hi you") []).
  apply (bool_decide_unpack _). vm_compute. exact I.
Defined.

(** ** The keyed-permutation mode as a letter substitution *)

Section Substitution.

Import CipherEncoder.

Variable key : std_string.
Hypothesis key_valid : keyValidation key = true.

Local Abbreviation ordering := (alphabetWithKey key).

Lemma ordering_Permutation : ordering ≡ₚ Spec.plain_alphabet.
Proof. by apply alphabetWithKey_Permutation. Qed.

(** The rank of a letter in the ordering. *)
Lemma rank_letter (c : Z) :
  isalpha c = true →
  ∃ i : nat,
    (i < 26)%nat ∧ ordering !! i = Some (toupper c)
    ∧ Spec.rank ordering (toupper c) = Z.of_nat i.
Proof.
  intros Ha.
  assert (toupper c ∈ ordering) as Hin
    by (rewrite ordering_Permutation; by apply toupper_letter).
  destruct (list_find_elem_of (λ x, x = toupper c) ordering (toupper c) Hin)
    as [[i x] Hfind]; [done|].
  pose proof Hfind as (Hi & -> & _)%list_find_Some.
  exists i. split; [|split; [done|]].
  - apply lookup_lt_Some in Hi.
    by rewrite (ordering_length _ ordering_Permutation) in Hi.
  - unfold Spec.rank. by rewrite Hfind.
Qed.

Lemma substitute_letter (c : Z) (i : nat) :
  isalpha c = true → Spec.rank ordering (toupper c) = Z.of_nat i →
  (i < 26)%nat →
  isalpha (Spec.substitute ordering c) = true
  ∧ abcPosition (Spec.substitute ordering c) = Z.of_nat i.
Proof.
  intros Ha Hrank Hi. unfold Spec.substitute. rewrite Ha, Hrank.
  unfold isalpha, abcPosition, toupper.
  change (chr "A") with 65; change (chr "Z") with 90.
  change (chr "a") with 97; change (chr "z") with 122.
  destruct ((97 <=? 65 + Z.of_nat i) && (65 + Z.of_nat i <=? 122)) eqn:E; lia.
Qed.

(** With the keyed table a character is written as the static table writes
    its substitute. *)
Lemma keyed_encrypt_char (table : list std_string) (ciphertext : std_string)
  (c : Z) :
  keyedCipherAlphabet ordering (replicate 26 []) = Ok table →
  encrypt_char table ciphertext c
  = encrypt_char CIPHER_ALPHABET ciphertext (Spec.substitute ordering c).
Proof.
  intros Htable.
  destruct (keyedCipherAlphabet_table _ ordering_Permutation)
    as (table' & Htable' & _ & Hslot).
  assert (table' = table) as -> by congruence.
  destruct (isalpha c) eqn:Ha.
  - destruct (rank_letter c Ha) as (i & Hi & Hlook & Hrank).
    destruct (substitute_letter c i Ha Hrank Hi) as [Hsa Hpos].
    unfold encrypt_char. rewrite Ha, Hsa, Hpos.
    unfold abcPosition. by rewrite (Hslot _ _ Hlook).
  - unfold Spec.substitute. rewrite Ha. unfold encrypt_char. by rewrite Ha.
Qed.

Lemma encrypt_with_key_chunks (plaintext : std_string) :
  encrypt_with_key plaintext key
  = Ok ((Spec.substitute ordering <$> plaintext) ≫= Spec.cipher_chunk).
Proof.
  unfold encrypt_with_key.
  destruct (keyedCipherAlphabet_table _ ordering_Permutation)
    as (table & Htable & _ & _).
  fold ordering. rewrite Htable. cbn [mbind result_bind].
  rewrite <- cipher_encrypt_chunks. unfold encrypt.
  rewrite for_each_fmap.
  apply (for_each_ext_inv (λ _, True)); [done | | done].
  intros acc c _. by apply keyed_encrypt_char.
Qed.

Lemma substitute_toupper (c : Z) :
  toupper (Spec.substitute ordering c) = Spec.substitute ordering c.
Proof.
  destruct (isalpha c) eqn:Ha.
  - destruct (rank_letter c Ha) as (i & Hi & _ & Hrank).
    unfold Spec.substitute. rewrite Ha, Hrank. unfold toupper.
    change (chr "A") with 65; change (chr "a") with 97.
    change (chr "z") with 122.
    destruct ((97 <=? 65 + Z.of_nat i) && (65 + Z.of_nat i <=? 122)) eqn:E;
      lia.
  - unfold Spec.substitute. rewrite Ha. by apply toupper_not_alpha.
Qed.

Lemma substitute_not_lead (c : Z) :
  c ≠ Spec.glyph_lead → Spec.substitute ordering c ≠ Spec.glyph_lead.
Proof.
  intros Hc. destruct (isalpha c) eqn:Ha.
  - destruct (rank_letter c Ha) as (i & Hi & _ & Hrank).
    unfold Spec.substitute, Spec.glyph_lead. rewrite Ha, Hrank.
    change (chr "A") with 65. lia.
  - unfold Spec.substitute. by rewrite Ha.
Qed.

Lemma substitute_inj (c1 c2 : Z) :
  isalpha c1 = true → isalpha c2 = true →
  Spec.substitute ordering c1 = Spec.substitute ordering c2 →
  toupper c1 = toupper c2.
Proof.
  intros H1 H2.
  destruct (rank_letter c1 H1) as (i1 & _ & Hl1 & Hr1).
  destruct (rank_letter c2 H2) as (i2 & _ & Hl2 & Hr2).
  unfold Spec.substitute. rewrite H1, H2, Hr1, Hr2. intros Heq.
  assert (i1 = i2) as -> by lia. congruence.
Qed.

End Substitution.

(** X21.  The keyed-permutation mode is the static cipher applied to a
    letter substitution: for every key that the validator accepts, the
    keyed ciphertext of a plaintext is the static ciphertext of the
    plaintext in which each letter is replaced by the letter of A-Z that has
    its rank in the keyword alphabet. *)
Theorem encrypt_with_key_substitution (plaintext key : std_string) :
  CipherEncoder.keyValidation key = true →
  CipherEncoder.encrypt_with_key plaintext key
  = CipherEncoder.encrypt
      (Spec.substitute (CipherEncoder.alphabetWithKey key) <$> plaintext)
      CipherEncoder.CIPHER_ALPHABET.
Proof.
  intros Hkey. rewrite (encrypt_with_key_chunks key Hkey).
  by rewrite cipher_encrypt_chunks.
Qed.

Lemma encrypt_with_key_substitution_witness :
  CipherEncoder.encrypt_with_key (lit "Hi you") (lit "Key")
  = CipherEncoder.encrypt
      (Spec.substitute (CipherEncoder.alphabetWithKey (lit "Key"))
         <$> lit "Hi you")
      CipherEncoder.CIPHER_ALPHABET.
Proof.
  apply (encrypt_with_key_substitution (lit "Hi you") (lit "Key")).
  reflexivity.
Defined.

(** X22.  What the decoder of Delta-K makes of a ciphertext of the
    keyed-permutation mode: for an accepted key and a plaintext without the
    byte 0xE2 it returns the plaintext in which every letter is replaced by
    the letter of the plain alphabet at its rank in the ordering of the key.
    This is the plaintext in upper case exactly when that ordering leaves
    every letter of the plaintext at its place, as the keys that spell the
    beginning of the alphabet do; for every other plaintext the decoder does
    not give the plaintext back. *)
Theorem decrypt_encrypt_with_key (plaintext key : std_string) :
  CipherEncoder.keyValidation key = true →
  Spec.glyph_lead ∉ plaintext →
  (ciphertext ← CipherEncoder.encrypt_with_key plaintext key ;
   DeltaK.decrypt ciphertext)
  = Ok (Spec.substitute (CipherEncoder.alphabetWithKey key) <$> plaintext)
  ∧ ((ciphertext ← CipherEncoder.encrypt_with_key plaintext key ;
      DeltaK.decrypt ciphertext)
     = Ok (toupper <$> plaintext)
     ↔ Forall
         (λ c, Spec.substitute (CipherEncoder.alphabetWithKey key) c
               = toupper c)
         plaintext).
Proof.
  intros Hkey Hlead.
  assert ((ciphertext ← CipherEncoder.encrypt_with_key plaintext key ;
           DeltaK.decrypt ciphertext)
          = Ok (Spec.substitute (CipherEncoder.alphabetWithKey key)
                  <$> plaintext)) as ->.
  { rewrite (encrypt_with_key_chunks key Hkey).
    cbn [mbind result_bind].
    rewrite <- (app_nil_r (_ ≫= _)), decrypt_cipher_chunks.
    - change (DeltaK.decrypt []) with (Ok [] : result std_string).
      cbn [mbind result_bind]. rewrite app_nil_r. f_equal.
      rewrite <- list_fmap_compose. apply list_fmap_ext.
      intros _ c _. by apply substitute_toupper.
    - intros (c & Hc & Hin)%list_elem_of_fmap.
      symmetry in Hc. revert Hc. apply substitute_not_lead; [done|].
      by intros ->. }
  split; [done|]. rewrite <- fmap_eq_Forall. split.
  - by intros [= ->].
  - by intros ->.
Qed.

Lemma decrypt_encrypt_with_key_witness :
  (ciphertext ← CipherEncoder.encrypt_with_key (lit "key") (lit "Key") ;
   DeltaK.decrypt ciphertext)
  = Ok (Spec.substitute (CipherEncoder.alphabetWithKey (lit "Key"))
          <$> lit "key")
  ∧ ((ciphertext ← CipherEncoder.encrypt_with_key (lit "key") (lit "Key") ;
      DeltaK.decrypt ciphertext)
     = Ok (toupper <$> lit "key")
     ↔ Forall
         (λ c, Spec.substitute (CipherEncoder.alphabetWithKey (lit "Key")) c
               = toupper c)
         (lit "key")).
Proof.
  apply (decrypt_encrypt_with_key (lit "key") (lit "Key")); [reflexivity|].
  apply (bool_decide_unpack _). vm_compute. exact I.
Defined.

(** X23.  For an accepted key the keyed-permutation mode writes different
    letters with different glyphs: after the same prefix, two letters with
    the same ciphertext are the same letter up to case. *)
Theorem encrypt_with_key_letter_injective (pre key : std_string) (c1 c2 : Z) :
  CipherEncoder.keyValidation key = true →
  isalpha c1 = true → isalpha c2 = true →
  CipherEncoder.encrypt_with_key (pre ++ [c1]) key
  = CipherEncoder.encrypt_with_key (pre ++ [c2]) key →
  toupper c1 = toupper c2.
Proof.
  intros Hkey H1 H2. rewrite !(encrypt_with_key_chunks key Hkey).
  rewrite !fmap_app, !bind_app. intros [= Heq%app_inv_head].
  rewrite !app_nil_r in Heq.
  apply (substitute_inj key Hkey); [done..|].
  destruct (rank_letter key Hkey c1 H1) as (i1 & Hi1 & _ & Hr1).
  destruct (rank_letter key Hkey c2 H2) as (i2 & Hi2 & _ & Hr2).
  destruct (substitute_letter key Hkey c1 i1 H1 Hr1 Hi1) as [Hs1 Hp1].
  destruct (substitute_letter key Hkey c2 i2 H2 Hr2 Hi2) as [Hs2 Hp2].
  unfold Spec.cipher_chunk in Heq. rewrite Hs1, Hs2, Hp1, Hp2 in Heq.
  assert (i1 = i2) as ->.
  { eapply (NoDup_lookup _ _ _ _ CIPHER_ALPHABET_NoDup).
    - pose proof (CIPHER_ALPHABET_row (Z.of_nat i1) ltac:(lia)) as Hrow.
      unfold index in Hrow. rewrite Nat2Z.id in Hrow.
      destruct (Z.of_nat i1 <? 0); [done|].
      destruct (CipherEncoder.CIPHER_ALPHABET !! i1) as [g|] eqn:Hg; [|done].
      injection Hrow as ->. done.
    - pose proof (CIPHER_ALPHABET_row (Z.of_nat i2) ltac:(lia)) as Hrow.
      unfold index in Hrow. rewrite Nat2Z.id in Hrow.
      destruct (Z.of_nat i2 <? 0); [done|].
      destruct (CipherEncoder.CIPHER_ALPHABET !! i2) as [g|] eqn:Hg; [|done].
      injection Hrow as ->. by rewrite Heq. }
  unfold Spec.substitute. by rewrite H1, H2, Hr1, Hr2.
Qed.

Lemma encrypt_with_key_letter_injective_witness :
  toupper (chr "k") = toupper (chr "K").
Proof.
  apply (encrypt_with_key_letter_injective (lit "a ") (lit "Key")
           (chr "k") (chr "K")); reflexivity.
Defined.

(** ** Keys that the keyed-permutation mode should not be given *)

Section BadKeys.

Import CipherEncoder.

Lemma index_Err {A} (arr : list A) (i : Z) (e : error) :
  index arr i = Err e → e = index_out_of_bounds.
Proof.
  unfold index. destruct (i <? 0); [congruence|].
  destruct (arr !! Z.to_nat i); congruence.
Qed.

Lemma char_at_Err (s : std_string) (i : Z) (e : error) :
  char_at s i = Err e → e = index_out_of_bounds.
Proof.
  unfold char_at. destruct (i =? Z.of_nat (length s)); [done|].
  apply index_Err.
Qed.

Lemma store_Err {A} (arr : list A) (i : Z) (x : A) (e : error) :
  store arr i x = Err e → e = index_out_of_bounds.
Proof. unfold store. destruct (_ && _); congruence. Qed.

Lemma store_length {A} (arr arr' : list A) (i : Z) (x : A) :
  store arr i x = Ok arr' → length arr' = length arr.
Proof.
  unfold store. destruct (_ && _); [|done].
  intros [= <-]. apply length_insert.
Qed.

(** The loop of [keyedCipherAlphabet] fails when one of its iterations meets
    a character whose slot is outside the table. *)
Lemma keyedCipherAlphabet_loop_fails (keyedAlphabet : std_string)
  (ranks : list Z) (output : list std_string) :
  length output = 26%nat →
  Exists (λ i, 0 ≤ i < 26
               ∧ ∃ c, keyedAlphabet !! Z.to_nat i = Some c
                      ∧ ¬ (0 ≤ c - chr "A" < 26)) ranks →
  for_each ranks
    (λ output i,
       c ← char_at keyedAlphabet i ;
       let index_ := c - chr "A" in
       g ← index CIPHER_ALPHABET i ;
       store output index_ g)
    output
  = Err index_out_of_bounds.
Proof.
  intros Hlen Hbad. revert output Hlen.
  induction Hbad as [i ranks (Hi & c & Hc & Hslot) | i ranks _ IH];
    intros output Hlen; cbn [for_each].
  - rewrite (char_at_lookup_Z _ _ c) by (lia || done).
    cbn [mbind result_bind].
    destruct (lookup_lt_is_Some_2 CIPHER_ALPHABET (Z.to_nat i)) as [g Hg];
      [simpl; lia|].
    rewrite (index_lookup _ _ g) by (lia || done). cbn [mbind result_bind].
    unfold store. rewrite Hlen.
    destruct (Z.leb_spec 0 (c - chr "A")),
      (Z.ltb_spec (c - chr "A") (Z.of_nat 26)); simpl; (done || lia).
  - match goal with
    | |- ?r ≫= _ = _ => destruct r as [output'|e] eqn:Hstep
    end; cbn [mbind result_bind].
    + apply IH. apply bind_Ok in Hstep as (c & _ & Hstep).
      apply bind_Ok in Hstep as (g & _ & Hstep).
      apply store_length in Hstep. congruence.
    + f_equal.
      apply bind_Err in Hstep as [Hstep | (c & _ & Hstep)];
        [by eapply char_at_Err|].
      apply bind_Err in Hstep as [Hstep | (g & _ & Hstep)];
        [by eapply index_Err | by eapply store_Err].
Qed.

Lemma plain_alphabet_table :
  keyedCipherAlphabet Spec.plain_alphabet (replicate 26 [])
  = Ok CIPHER_ALPHABET.
Proof. vm_compute. reflexivity. Qed.

Lemma alphabet_prefix_key (key : std_string) :
  toupper <$> key = take (length key) Spec.plain_alphabet →
  alphabetWithKey key = Spec.plain_alphabet.
Proof.
  intros Hkey. rewrite alphabetWithKey_ordering. unfold Spec.keyed_ordering.
  rewrite Hkey.
  assert (length key ≤ 26)%nat as Hlen.
  { apply (f_equal length) in Hkey.
    rewrite length_fmap, length_take in Hkey.
    change (length Spec.plain_alphabet) with 26%nat in Hkey. lia. }
  assert (0 ≤ Z.of_nat (length key) < 27) as Hn by lia.
  rewrite <- (Nat2Z.id (length key)). revert Hn.
  generalize (Z.of_nat (length key)). intros n Hn.
  range_cases n; vm_compute; reflexivity.
Qed.

End BadKeys.

(** X24.  A key that spells the beginning of the alphabet, in any case, and
    the empty key among them, gives no keyed cipher: the keyed-permutation
    path returns what the static table returns. *)
Theorem encrypt_with_key_alphabet_prefix (plaintext key : std_string) :
  toupper <$> key = take (length key) Spec.plain_alphabet →
  CipherEncoder.encrypt_with_key plaintext key
  = CipherEncoder.encrypt plaintext CipherEncoder.CIPHER_ALPHABET.
Proof.
  intros Hkey. unfold CipherEncoder.encrypt_with_key.
  by rewrite (alphabet_prefix_key key Hkey), plain_alphabet_table.
Qed.

Lemma encrypt_with_key_alphabet_prefix_witness :
  CipherEncoder.encrypt_with_key (lit "Hi you") (lit "aBc")
  = CipherEncoder.encrypt (lit "Hi you") CipherEncoder.CIPHER_ALPHABET.
Proof.
  apply (encrypt_with_key_alphabet_prefix (lit "Hi you") (lit "aBc")).
  reflexivity.
Defined.

(** X25.  [keyedCipherAlphabet] does not check its argument: for a key that
    holds a character that is no letter among its first 26 characters, the
    store [output[index]] falls outside the table of 26 strings, whatever
    the plaintext. *)
Theorem encrypt_with_key_bad_key (plaintext key : std_string) (i : nat)
  (c : Z) :
  (i < 26)%nat → key !! i = Some c → isalpha c = false →
  CipherEncoder.encrypt_with_key plaintext key = Err index_out_of_bounds.
Proof.
  intros Hi Hc Ha. unfold CipherEncoder.encrypt_with_key.
  unfold CipherEncoder.keyedCipherAlphabet.
  rewrite (keyedCipherAlphabet_loop_fails _ _ _ (length_replicate 26 []));
    [done|].
  apply Exists_exists. exists (Z.of_nat i).
  split; [apply elem_of_seqZ; unfold CipherEncoder.ALPHABET_LENGTH; lia|].
  split; [lia|]. exists c. rewrite Nat2Z.id. split.
  - unfold CipherEncoder.alphabetWithKey.
    rewrite lookup_app_l by (rewrite length_fmap; by eapply lookup_lt_Some).
    rewrite list_lookup_fmap, Hc. simpl. by rewrite (toupper_not_alpha c Ha).
  - rewrite <- (toupper_not_alpha c Ha). by apply not_alpha_slot.
Qed.

Lemma encrypt_with_key_bad_key_witness :
  CipherEncoder.encrypt_with_key (lit "Hi") (lit "a1b")
  = Err index_out_of_bounds.
Proof.
  apply (encrypt_with_key_bad_key (lit "Hi") (lit "a1b") 1 (chr "1"));
    [lia | reflexivity | reflexivity].
Defined.

(** ** The loop of [main] *)

Section Main.

Import CipherEncoder.

(** A key that is neither "0" nor accepted leaves [ciphertext] as it is and
    makes the loop ask again. *)
Lemma main_iteration_rejected (plaintext key ciphertext : std_string) :
  key ≠ lit "0" → keyValidation key = false →
  main_iteration plaintext key ciphertext = Ok (ciphertext, true).
Proof.
  intros Hkey Hval. unfold main_iteration.
  by rewrite bool_decide_eq_false_2, Hval.
Qed.

(** The loop goes past the rejected keys, whatever [key] held before, and
    ends at the first key that is "0" or accepted. *)
Lemma main_loop_first_accepted (plaintext key : std_string)
  (rest rejected : list std_string) :
  Forall (λ key, key ≠ lit "0" ∧ keyValidation key = false) rejected →
  key = lit "0" ∨ keyValidation key = true →
  ∀ (fuel : nat) (key0 ciphertext0 : std_string),
    (length rejected < fuel)%nat →
    ∃ ciphertext,
      main_loop fuel plaintext (rejected ++ key :: rest) key0 ciphertext0
      = Ok ciphertext
      ∧ (if bool_decide (key = lit "0")
         then encrypt plaintext CIPHER_ALPHABET
         else encrypt_with_key plaintext key)
        = Ok ciphertext.
Proof.
  intros Hrej Hkey.
  induction Hrej as [|k rejected [Hk Hval] _ IH];
    intros [|fuel] key0 ciphertext0 Hfuel; simpl in Hfuel; try lia.
  - cbn [app main_loop cin_read]. unfold main_iteration.
    case_bool_decide as H0.
    + subst key. rewrite cipher_encrypt_chunks. cbn [mbind result_bind].
      eexists. split; [|done]. by vm_compute (keyValidation _).
    + destruct Hkey as [?|Hacc]; [done|].
      rewrite Hacc, (encrypt_with_key_chunks key Hacc).
      cbn [mbind result_bind negb orb]. eauto.
  - cbn [app main_loop cin_read]. rewrite main_iteration_rejected by done.
    cbn [mbind result_bind]. apply IH. lia.
Qed.

(** Once the input is used up while [key] holds a rejected key, or when only
    rejected keys are left, no number of iterations ends the loop. *)
Lemma main_loop_never_ends (plaintext : std_string) (fuel : nat) :
  ∀ (rejected : list std_string) (key0 ciphertext0 : std_string),
    Forall (λ key, key ≠ lit "0" ∧ keyValidation key = false) rejected →
    rejected ≠ [] ∨ (key0 ≠ lit "0" ∧ keyValidation key0 = false) →
    main_loop fuel plaintext rejected key0 ciphertext0 = Err out_of_fuel.
Proof.
  induction fuel as [|fuel IH]; intros rejected key0 ciphertext0 Hrej Hkey0;
    [done|].
  destruct Hrej as [|k rejected [Hk Hval] Hrej]; cbn [main_loop cin_read].
  - destruct Hkey0 as [?|[Hk Hval]]; [done|].
    rewrite main_iteration_rejected by done. cbn [mbind result_bind].
    apply IH; [constructor | by right].
  - rewrite main_iteration_rejected by done. cbn [mbind result_bind].
    apply IH; [done | by right].
Qed.

(** Without any token, the first iteration runs with the empty [key], which
    the validator accepts and which gives the static table. *)
Lemma main_loop_no_input (plaintext ciphertext0 : std_string) (fuel : nat) :
  main_loop (S fuel) plaintext [] [] ciphertext0
  = encrypt plaintext CIPHER_ALPHABET.
Proof.
  cbn [main_loop cin_read]. unfold main_iteration.
  rewrite bool_decide_eq_false_2 by discriminate.
  change (keyValidation []) with true. cbn [negb orb].
  unfold encrypt_with_key.
  change (alphabetWithKey []) with Spec.plain_alphabet.
  rewrite plain_alphabet_table. cbn [mbind result_bind].
  rewrite cipher_encrypt_chunks. reflexivity.
Qed.

End Main.

(** X26.  The loop of [main] runs its body before it tests its condition,
    and reads [key] in every iteration.  It skips every key that is neither
    "0" nor accepted by the validator and prints the ciphertext made with
    the first key that is: the static ciphertext for "0", the keyed one
    otherwise; the encoding of that key does not fail, and later keys are
    not read.  When the input ends after rejected keys only, the read fails,
    [key] keeps the last rejected key and no number of iterations ends the
    loop.  When the input holds no key at all, [key] is still the empty
    string, which the validator accepts, and the static ciphertext is
    printed. *)
Theorem main_first_accepted_key (fuel : nat) (plaintext key : std_string)
  (rejected rest : list std_string) :
  Forall (λ k, k ≠ lit "0" ∧ CipherEncoder.keyValidation k = false) rejected →
  key = lit "0" ∨ CipherEncoder.keyValidation key = true →
  (length rejected < fuel)%nat →
  (∃ ciphertext,
     CipherEncoder.main fuel plaintext (rejected ++ key :: rest)
     = Ok ciphertext
     ∧ (if bool_decide (key = lit "0")
        then CipherEncoder.encrypt plaintext CipherEncoder.CIPHER_ALPHABET
        else CipherEncoder.encrypt_with_key plaintext key)
       = Ok ciphertext)
  ∧ (rejected ≠ [] →
     ∀ n, CipherEncoder.main n plaintext rejected = Err out_of_fuel)
  ∧ (∃ ciphertext,
       CipherEncoder.main fuel plaintext [] = Ok ciphertext
       ∧ CipherEncoder.encrypt plaintext CipherEncoder.CIPHER_ALPHABET
         = Ok ciphertext).
Proof.
  intros Hrej Hkey Hfuel. unfold CipherEncoder.main. split; [|split].
  - by apply main_loop_first_accepted.
  - intros Hne n. apply main_loop_never_ends; [done | by left].
  - destruct fuel as [|fuel]; [lia|]. rewrite main_loop_no_input.
    rewrite cipher_encrypt_chunks. eauto.
Qed.

Lemma main_first_accepted_key_witness :
  (∃ ciphertext,
     CipherEncoder.main 3 (lit "Hi you")
       ([lit "a1"; lit "aa"] ++ lit "Key" :: [lit "0"])
     = Ok ciphertext
     ∧ (if bool_decide (lit "Key" = lit "0")
        then CipherEncoder.encrypt (lit "Hi you") CipherEncoder.CIPHER_ALPHABET
        else CipherEncoder.encrypt_with_key (lit "Hi you") (lit "Key"))
       = Ok ciphertext)
  ∧ ([lit "a1"; lit "aa"] ≠ [] →
     ∀ n, CipherEncoder.main n (lit "Hi you") [lit "a1"; lit "aa"]
          = Err out_of_fuel)
  ∧ (∃ ciphertext,
       CipherEncoder.main 3 (lit "Hi you") [] = Ok ciphertext
       ∧ CipherEncoder.encrypt (lit "Hi you") CipherEncoder.CIPHER_ALPHABET
         = Ok ciphertext).
Proof.
  apply (main_first_accepted_key 3 (lit "Hi you") (lit "Key")
           [lit "a1"; lit "aa"] [lit "0"]).
  - repeat constructor; discriminate.
  - right. reflexivity.
  - simpl. lia.
Defined.
